(** * SimpleVector: a shallow embedding of [array_ptr.h] and [simple_vector.h]

    The development follows the two headers of the repository:

    - [ArrayPtr<Type>]   (array_ptr.h)     the owning pointer to a heap array;
    - [SimpleVector<Type>] (simple_vector.h) size/capacity bookkeeping over one
      [ArrayPtr], with the standard algorithms it calls ([std::copy],
      [std::move], [std::copy_backward], ...), written as the loops the
      standard gives for them, over a small memory of arrays.

    Conventions.
    - [size_t] is a 64-bit unsigned integer: a value of [N] below [2^64];
      every arithmetic operation of the source on a [size_t] is followed by
      its reduction modulo [2^64].
    - A call can end in four ways, see [outcome]: it returns, it throws
      [std::out_of_range], it fails an [assert] (debug build only), or it
      touches memory outside an array (undefined behaviour).
    - [new Type[n]] is assumed to succeed ([std::bad_alloc] is not part of
      the model); the contents of the fresh array are whatever the element
      type's default initialisation leaves there, see [new_array]. *)

From Stdlib Require Import NArith Lia.
From stdpp Require Import base option list.

Set Default Proof Using "Type".
Local Open Scope N_scope.

(** ** [size_t] *)

Definition SIZE_MAX : N := 2 ^ 64 - 1.

(** The largest array length an implementation can offer: no object is
    larger than [PTRDIFF_MAX] bytes and an element takes at least one. *)
Definition PTRDIFF_MAX : N := 2 ^ 63 - 1.

(** Reduction of an arithmetic result to [size_t]. *)
Definition size_t_wrap (n : N) : N := n mod 2 ^ 64.

(** [a + b], [a * b], [++a] and [--a] on [size_t]. *)
Definition size_t_add (a b : N) : N := size_t_wrap (a + b).
Definition size_t_mul (a b : N) : N := size_t_wrap (a * b).
Definition size_t_incr (a : N) : N := size_t_add a 1.
Definition size_t_decr (a : N) : N := size_t_wrap (a + SIZE_MAX).

(** ** How a call ends *)

Inductive exception : Type :=
| out_of_range.  (* std::out_of_range("range error\n") *)

Inductive outcome (A : Type) : Type :=
| Ret (a : A)              (* normal return *)
| Throw (e : exception)    (* an exception leaves the call *)
| Abort                    (* a failed assert: the program is aborted *)
| Undefined.               (* an access outside the bounds of an array *)

Arguments Ret {A} a.
Arguments Throw {A} e.
Arguments Abort {A}.
Arguments Undefined {A}.

Definition obind {A B : Type} (m : outcome A) (k : A -> outcome B) : outcome B :=
  match m with
  | Ret a => k a
  | Throw e => Throw e
  | Abort => Abort
  | Undefined => Undefined
  end.

Declare Scope outcome_scope.
Delimit Scope outcome_scope with outcome.
Notation "x <- m ;; k" := (obind m (fun x => k))
  (at level 100, m at next level, right associativity) : outcome_scope.
Notation "m ;;; k" := (obind m (fun _ => k))
  (at level 100, right associativity) : outcome_scope.
Local Open Scope outcome_scope.

(** [assert] is compiled in a debug build and compiled out under [NDEBUG]. *)
Inductive build : Type := Debug | Release.

Definition assert_ (bm : build) (cond : bool) : outcome unit :=
  match bm with
  | Debug => if cond then Ret tt else Abort
  | Release => Ret tt
  end.

(** ** The element type

    What the container needs from [Type]: the value of [Type{}], what
    [new Type[n]] leaves in the fresh array (for a class type the default
    constructor's result, for a scalar type an indeterminate value), the
    state an object is left in after it was moved from, and, for the
    comparison operators only, [operator==] and [operator<]. *)
Class Element (T : Type) : Type := {
  Type_default : T;
  new_array : nat -> list T;
  new_array_length : forall n, length (new_array n) = n;
  moved_from : T -> T;
  elem_eq : T -> T -> bool;
  elem_lt : T -> T -> bool
}.

(** ** Memory seen by the standard algorithms

    An algorithm call of the container touches at most two arrays: the
    array of the vector it is called on and a second one (the temporary
    array of a reallocation, or the array of another vector). A pointer is
    an array and an offset into it. *)
Inductive block : Type := Own | Other.

Record ptr : Type := Ptr { blk : block; off : nat }.

Record memory (T : Type) : Type := Mem { m_own : list T; m_other : list T }.
Arguments Mem {T} m_own m_other.
Arguments m_own {T} m.
Arguments m_other {T} m.

Definition block_eqb (a b : block) : bool :=
  match a, b with
  | Own, Own | Other, Other => true
  | _, _ => false
  end.

Definition ptr_next (p : ptr) : ptr := Ptr (blk p) (S (off p)).
Definition ptr_prev (p : ptr) : ptr := Ptr (blk p) (pred (off p)).
Definition ptr_add (p : ptr) (n : nat) : ptr := Ptr (blk p) (off p + n).

Section Algorithms.
Context {T : Type} `{Element T}.

Definition cells_of (m : memory T) (b : block) : list T :=
  match b with Own => m_own m | Other => m_other m end.

(** [*p] as an rvalue. *)
Definition load (m : memory T) (p : ptr) : outcome T :=
  match cells_of m (blk p) !! off p with
  | Some x => Ret x
  | None => Undefined
  end.

(** [*p = x]. *)
Definition store (m : memory T) (p : ptr) (x : T) : outcome (memory T) :=
  if decide (off p < length (cells_of m (blk p)))%nat then
    Ret match blk p with
        | Own => Mem (<[off p := x]> (m_own m)) (m_other m)
        | Other => Mem (m_own m) (<[off p := x]> (m_other m))
        end
  else Undefined.

(** [*d = std::move( *s )]: the destination takes the value, the source
    is left in its moved-from state. *)
Definition move_assign (m : memory T) (d s : ptr) : outcome (memory T) :=
  x <- load m s ;;
  m1 <- store m d x ;;
  store m1 s (moved_from x).

(** The number of iterations of [while (first != last) { ...; ++first; }]:
    the loop only ends when [first] reaches [last] inside one array. *)
Definition distance (first last : ptr) : outcome nat :=
  if block_eqb (blk first) (blk last) && (off first <=? off last)%nat
  then Ret (off last - off first)%nat
  else Undefined.

(** [std::fill(first, last, value)]:
    [for (; first != last; ++first) *first = value;] *)
Fixpoint fill_loop (n : nat) (first : ptr) (value : T) (m : memory T)
  : outcome (memory T) :=
  match n with
  | O => Ret m
  | S k => m1 <- store m first value ;; fill_loop k (ptr_next first) value m1
  end.

Definition std_fill (first last : ptr) (value : T) (m : memory T)
  : outcome (memory T) :=
  n <- distance first last ;; fill_loop n first value m.

(** [std::copy(first, last, d_first)]:
    [for (; first != last; ++first, ++d_first) *d_first = *first;]
    [std::uninitialized_copy] runs the same loop, constructing each
    destination element from the source element. *)
Fixpoint copy_loop (n : nat) (first d_first : ptr) (m : memory T)
  : outcome (memory T) :=
  match n with
  | O => Ret m
  | S k =>
      x <- load m first ;;
      m1 <- store m d_first x ;;
      copy_loop k (ptr_next first) (ptr_next d_first) m1
  end.

Definition std_copy (first last d_first : ptr) (m : memory T)
  : outcome (memory T) :=
  n <- distance first last ;; copy_loop n first d_first m.

Definition std_uninitialized_copy := std_copy.

(** [std::move(first, last, d_first)]:
    [for (; first != last; ++first, ++d_first) *d_first = std::move( *first );] *)
Fixpoint move_loop (n : nat) (first d_first : ptr) (m : memory T)
  : outcome (memory T) :=
  match n with
  | O => Ret m
  | S k =>
      m1 <- move_assign m d_first first ;;
      move_loop k (ptr_next first) (ptr_next d_first) m1
  end.

Definition std_move (first last d_first : ptr) (m : memory T)
  : outcome (memory T) :=
  n <- distance first last ;; move_loop n first d_first m.

(** [std::copy_backward(first, last, d_last)]:
    [while (first != last) *(--d_last) = *(--last);] *)
Fixpoint copy_backward_loop (n : nat) (last d_last : ptr) (m : memory T)
  : outcome (memory T) :=
  match n with
  | O => Ret m
  | S k =>
      if decide (off last = 0 \/ off d_last = 0)%nat then Undefined else
      x <- load m (ptr_prev last) ;;
      m1 <- store m (ptr_prev d_last) x ;;
      copy_backward_loop k (ptr_prev last) (ptr_prev d_last) m1
  end.

Definition std_copy_backward (first last d_last : ptr) (m : memory T)
  : outcome (memory T) :=
  n <- distance first last ;; copy_backward_loop n last d_last m.

(** [std::move_backward(first, last, d_last)]:
    [while (first != last) *(--d_last) = std::move( *(--last) );] *)
Fixpoint move_backward_loop (n : nat) (last d_last : ptr) (m : memory T)
  : outcome (memory T) :=
  match n with
  | O => Ret m
  | S k =>
      if decide (off last = 0 \/ off d_last = 0)%nat then Undefined else
      m1 <- move_assign m (ptr_prev d_last) (ptr_prev last) ;;
      move_backward_loop k (ptr_prev last) (ptr_prev d_last) m1
  end.

Definition std_move_backward (first last d_last : ptr) (m : memory T)
  : outcome (memory T) :=
  n <- distance first last ;; move_backward_loop n last d_last m.

(** [std::equal(first1, last1, first2)]:
    [for (; first1 != last1; ++first1, ++first2)
       if (!( *first1 == *first2 )) return false;
     return true;] *)
Fixpoint equal_loop (n : nat) (first1 first2 : ptr) (m : memory T)
  : outcome bool :=
  match n with
  | O => Ret true
  | S k =>
      x <- load m first1 ;;
      y <- load m first2 ;;
      if elem_eq x y then equal_loop k (ptr_next first1) (ptr_next first2) m
      else Ret false
  end.

Definition std_equal (first1 last1 first2 : ptr) (m : memory T)
  : outcome bool :=
  n <- distance first1 last1 ;; equal_loop n first1 first2 m.

(** [std::lexicographical_compare(first1, last1, first2, last2)]:
    [for (; (first1 != last1) && (first2 != last2); ++first1, ++first2) {
       if ( *first1 < *first2 ) return true;
       if ( *first2 < *first1 ) return false;
     }
     return (first1 == last1) && (first2 != last2);]
    [n1] and [n2] are the lengths left of the two ranges. *)
Fixpoint lexicographical_compare_loop (n1 n2 : nat) (first1 first2 : ptr)
  (m : memory T) : outcome bool :=
  match n1, n2 with
  | S k1, S k2 =>
      x <- load m first1 ;;
      y <- load m first2 ;;
      if elem_lt x y then Ret true
      else if elem_lt y x then Ret false
      else lexicographical_compare_loop k1 k2
             (ptr_next first1) (ptr_next first2) m
  | O, S _ => Ret true
  | _, O => Ret false
  end.

Definition std_lexicographical_compare (first1 last1 first2 last2 : ptr)
  (m : memory T) : outcome bool :=
  n1 <- distance first1 last1 ;;
  n2 <- distance first2 last2 ;;
  lexicographical_compare_loop n1 n2 first1 first2 m.
End Algorithms.

(** ** [ArrayPtr<Type>] (array_ptr.h)

    [raw_ptr_] is either [nullptr] or points to the first cell of a heap
    array; the array is kept with the pointer that owns it. *)
Record ArrayPtr (T : Type) : Type := MkArrayPtr { raw_ptr_ : option (list T) }.
Arguments MkArrayPtr {T} raw_ptr_.
Arguments raw_ptr_ {T} a.

Module ArrayPtr_.
Section ArrayPtr_.
Context {T : Type} `{Element T}.

(** [ArrayPtr() = default] *)
Definition empty : ArrayPtr T := MkArrayPtr None.

(** [explicit ArrayPtr(size_t size)] *)
Definition create (size : N) : ArrayPtr T :=
  if negb (size =? 0) then MkArrayPtr (Some (new_array (N.to_nat size)))
  else MkArrayPtr None.

(** The cells reachable through the pointer: none through [nullptr]. *)
Definition cells (a : ArrayPtr T) : list T :=
  match raw_ptr_ a with Some l => l | None => [] end.

(** The same pointer after the cells it points to were written. *)
Definition with_cells (a : ArrayPtr T) (l : list T) : ArrayPtr T :=
  match raw_ptr_ a with Some _ => MkArrayPtr (Some l) | None => a end.

(** [ArrayPtr(ArrayPtr&& other)]: the new object and what is left of
    [other]. *)
Definition move_construct (other : ArrayPtr T) : ArrayPtr T * ArrayPtr T :=
  (MkArrayPtr (raw_ptr_ other), MkArrayPtr None).

(** [Release()]: the raw pointer and the object after the call. *)
Definition Release (a : ArrayPtr T) : option (list T) * ArrayPtr T :=
  (raw_ptr_ a, MkArrayPtr None).

(** [operator[](index)] read: [*(raw_ptr_ + index)]. *)
Definition get (a : ArrayPtr T) (index : N) : outcome T :=
  match cells a !! N.to_nat index with
  | Some x => Ret x
  | None => Undefined
  end.

(** [a[index] = x]. *)
Definition set (a : ArrayPtr T) (index : N) (x : T) : outcome (ArrayPtr T) :=
  if decide (N.to_nat index < length (cells a))%nat
  then Ret (with_cells a (<[N.to_nat index := x]> (cells a)))
  else Undefined.

(** [explicit operator bool()] *)
Definition to_bool (a : ArrayPtr T) : bool :=
  match raw_ptr_ a with Some _ => true | None => false end.

(** [Get()] *)
Definition Get (a : ArrayPtr T) : option (list T) := raw_ptr_ a.

(** [operator=(ArrayPtr&& rhs)] for [this != &rhs]: [( *this, rhs)] after
    the call; the array [*this] pointed to is not released. *)
Definition move_assign (a rhs : ArrayPtr T) : ArrayPtr T * ArrayPtr T :=
  (MkArrayPtr (raw_ptr_ rhs), MkArrayPtr None).

(** [swap(other)]: [( *this, other)] after the call. *)
Definition swap (a other : ArrayPtr T) : ArrayPtr T * ArrayPtr T := (other, a).
End ArrayPtr_.
End ArrayPtr_.

(** ** [ReserveProxyObj] and [Reserve(capacity_to_reserve)] *)
Record ReserveProxyObj : Type := MkReserveProxyObj { proxy_capacity_ : N }.

Definition ReserveCapasity (p : ReserveProxyObj) : N := proxy_capacity_ p.

Definition Reserve_proxy (capacity_to_reserve : N) : ReserveProxyObj :=
  MkReserveProxyObj capacity_to_reserve.

(** ** [SimpleVector<Type>] (simple_vector.h) *)
Record SimpleVector (T : Type) : Type := MkSimpleVector {
  items_ : ArrayPtr T;
  size_ : N;
  capacity_ : N
}.
Arguments MkSimpleVector {T} items_ size_ capacity_.
Arguments items_ {T} s.
Arguments size_ {T} s.
Arguments capacity_ {T} s.

Section SimpleVector.
Context {T : Type} `{Element T}.

Abbreviation vec := (SimpleVector T).

(** An iterator is a pointer into the array of the vector; it is given by
    its offset from [begin()]. *)
Definition begin_ (v : vec) : ptr := Ptr Own 0.
Definition end_ (v : vec) : ptr := Ptr Own (N.to_nat (size_ v)).
Definition iter (pos : N) : ptr := Ptr Own (N.to_nat pos).

(** The memory of an algorithm call on the array of [own] and a second
    array [other]. *)
Definition mem_of (own other : ArrayPtr T) : memory T :=
  Mem (ArrayPtr_.cells own) (ArrayPtr_.cells other).

Definition GetSize (v : vec) : N := size_ v.
Definition GetCapacity (v : vec) : N := capacity_ v.
Definition IsEmpty (v : vec) : bool := size_ v =? 0.

(** [SimpleVector() noexcept = default] *)
Definition SimpleVector_default : vec := MkSimpleVector ArrayPtr_.empty 0 0.

(** [SimpleVector(size_t size, const Type& value)] *)
Definition SimpleVector_fill (size : N) (value : T) : outcome vec :=
  let items := ArrayPtr_.create size in
  m <- std_fill (Ptr Own 0) (Ptr Own (N.to_nat size)) value
         (mem_of items ArrayPtr_.empty) ;;
  Ret (MkSimpleVector (ArrayPtr_.with_cells items (m_own m)) size size).

(** [explicit SimpleVector(size_t size)] *)
Definition SimpleVector_sized (size : N) : outcome vec :=
  SimpleVector_fill size Type_default.

(** [SimpleVector(std::initializer_list<Type> init)]: the list is the
    second array of the copy. *)
Definition SimpleVector_init (init : list T) : outcome vec :=
  let n := N.of_nat (length init) in
  let items := ArrayPtr_.create n in
  m <- std_copy (Ptr Other 0) (Ptr Other (length init)) (Ptr Own 0)
         (Mem (ArrayPtr_.cells items) init) ;;
  Ret (MkSimpleVector (ArrayPtr_.with_cells items (m_own m)) n n).

(** [SimpleVector(const SimpleVector& other)] *)
Definition SimpleVector_copy (other : vec) : outcome vec :=
  let items := ArrayPtr_.create (size_ other) in
  m <- std_uninitialized_copy (Ptr Other 0) (Ptr Other (N.to_nat (size_ other)))
         (Ptr Own 0) (mem_of items (items_ other)) ;;
  Ret (MkSimpleVector (ArrayPtr_.with_cells items (m_own m))
         (size_ other) (capacity_ other)).

(** [swap(other)]: [( *this, other)] after the call. *)
Definition swap (v other : vec) : vec * vec :=
  let '(i1, i2) := ArrayPtr_.swap (items_ v) (items_ other) in
  (MkSimpleVector i1 (size_ other) (capacity_ other),
   MkSimpleVector i2 (size_ v) (capacity_ v)).

(** [SimpleVector(SimpleVector&& other)]: the members take their default
    initialisers, then [this->swap(other)]. *)
Definition SimpleVector_move (other : vec) : vec * vec :=
  swap SimpleVector_default other.

(** [operator[](index)]; the reference returned is given by the value of
    the cell it designates. *)
Definition subscript (bm : build) (v : vec) (index : N) : outcome T :=
  assert_ bm (index <=? size_ v) ;;;
  ArrayPtr_.get (items_ v) index.

(** [At(index)] *)
Definition At (v : vec) (index : N) : outcome T :=
  if negb (index <? size_ v) then Throw out_of_range
  else ArrayPtr_.get (items_ v) index.

(** [Clear()] *)
Definition Clear (v : vec) : vec :=
  MkSimpleVector (items_ v) 0 (capacity_ v).

(** [Reserve(new_capacity)] *)
Definition Reserve (v : vec) (new_capacity : N) : outcome vec :=
  if new_capacity <=? capacity_ v then Ret v else
  let tmp := ArrayPtr_.create new_capacity in
  m <- std_move (begin_ v) (end_ v) (Ptr Other 0) (mem_of (items_ v) tmp) ;;
  let tmp := ArrayPtr_.with_cells tmp (m_other m) in
  Ret (MkSimpleVector tmp (size_ v) new_capacity).

(** [Resize(new_size)]; the two [for] loops that assign [Type{}] to the
    cells from [size_] to [new_size] are the loop of [std::fill]. *)
Definition Resize (v : vec) (new_size : N) : outcome vec :=
  if size_ v =? new_size then Ret v else
  if (size_ v <? new_size) && (capacity_ v <? new_size) then
    let new_capacity := N.max new_size (size_t_mul (capacity_ v) 2) in
    let tmp := ArrayPtr_.create new_capacity in
    m <- std_move (begin_ v) (end_ v) (Ptr Other 0) (mem_of (items_ v) tmp) ;;
    m <- std_fill (Ptr Other (N.to_nat (size_ v)))
           (Ptr Other (N.to_nat new_size)) Type_default m ;;
    let tmp := ArrayPtr_.with_cells tmp (m_other m) in
    Ret (MkSimpleVector tmp new_size new_capacity)
  else if (size_ v <? new_size) && (new_size <? capacity_ v) then
    m <- std_fill (iter (size_ v)) (iter new_size) Type_default
           (mem_of (items_ v) ArrayPtr_.empty) ;;
    Ret (MkSimpleVector (ArrayPtr_.with_cells (items_ v) (m_own m))
           new_size (capacity_ v))
  else
    Ret (MkSimpleVector (items_ v) new_size (capacity_ v)).

(** [PushBack(const Type& item)] *)
Definition PushBack (v : vec) (item : T) : outcome vec :=
  v1 <- (if size_ v <? capacity_ v then
           items <- ArrayPtr_.set (items_ v) (size_ v) item ;;
           Ret (MkSimpleVector items (size_ v) (capacity_ v))
         else
           let new_capacity := N.max 1 (size_t_mul (capacity_ v) 2) in
           let tmp := ArrayPtr_.create new_capacity in
           m <- std_copy (begin_ v) (end_ v) (Ptr Other 0)
                  (mem_of (items_ v) tmp) ;;
           tmp <- ArrayPtr_.set (ArrayPtr_.with_cells tmp (m_other m))
                    (size_ v) item ;;
           Ret (MkSimpleVector tmp (size_ v) new_capacity)) ;;
  Ret (MkSimpleVector (items_ v1) (size_t_incr (size_ v1)) (capacity_ v1)).

(** [PushBack(Type&& item)] *)
Definition PushBack_rvalue (v : vec) (item : T) : outcome vec :=
  v1 <- (if size_ v <? capacity_ v then
           items <- ArrayPtr_.set (items_ v) (size_ v) item ;;
           Ret (MkSimpleVector items (size_ v) (capacity_ v))
         else
           let new_capacity := N.max 1 (size_t_mul (capacity_ v) 2) in
           let tmp := ArrayPtr_.create new_capacity in
           m <- std_move (begin_ v) (end_ v) (Ptr Other 0)
                  (mem_of (items_ v) tmp) ;;
           tmp <- ArrayPtr_.set (ArrayPtr_.with_cells tmp (m_other m))
                    (size_ v) item ;;
           Ret (MkSimpleVector tmp (size_ v) new_capacity)) ;;
  Ret (MkSimpleVector (items_ v1) (size_t_incr (size_ v1)) (capacity_ v1)).

(** [Insert(ConstIterator pos, const Type& value)]; returns the vector
    and the iterator [&items_[pos_value]]. *)
Definition Insert (bm : build) (v : vec) (pos : N) (value : T)
  : outcome (vec * N) :=
  assert_ bm ((0 <=? pos) && (pos <=? size_ v)) ;;;
  let pos_value := pos in
  v1 <- (if size_ v <? capacity_ v then
           m <- std_copy_backward (iter pos) (end_ v) (ptr_next (end_ v))
                  (mem_of (items_ v) ArrayPtr_.empty) ;;
           items <- ArrayPtr_.set (ArrayPtr_.with_cells (items_ v) (m_own m))
                      pos_value value ;;
           Ret (MkSimpleVector items (size_ v) (capacity_ v))
         else
           let new_capacity := N.max 1 (size_t_mul (capacity_ v) 2) in
           let tmp := ArrayPtr_.create new_capacity in
           let it_pos := iter pos_value in
           m <- std_copy (begin_ v) it_pos (Ptr Other 0)
                  (mem_of (items_ v) tmp) ;;
           m <- std_copy_backward it_pos (end_ v)
                  (Ptr Other (N.to_nat (size_t_add (size_ v) 1))) m ;;
           tmp <- ArrayPtr_.set (ArrayPtr_.with_cells tmp (m_other m))
                    pos_value value ;;
           Ret (MkSimpleVector tmp (size_ v) new_capacity)) ;;
  Ret (MkSimpleVector (items_ v1) (size_t_incr (size_ v1)) (capacity_ v1),
       pos_value).

(** [Insert(ConstIterator pos, Type&& value)] *)
Definition Insert_rvalue (bm : build) (v : vec) (pos : N) (value : T)
  : outcome (vec * N) :=
  assert_ bm ((0 <=? pos) && (pos <=? size_ v)) ;;;
  let pos_value := pos in
  v1 <- (if size_ v <? capacity_ v then
           m <- std_move_backward (iter pos) (end_ v) (ptr_next (end_ v))
                  (mem_of (items_ v) ArrayPtr_.empty) ;;
           items <- ArrayPtr_.set (ArrayPtr_.with_cells (items_ v) (m_own m))
                      pos_value value ;;
           Ret (MkSimpleVector items (size_ v) (capacity_ v))
         else
           let new_capacity := N.max 1 (size_t_mul (capacity_ v) 2) in
           let tmp := ArrayPtr_.create new_capacity in
           m <- std_move (begin_ v) (iter pos_value) (Ptr Other 0)
                  (mem_of (items_ v) tmp) ;;
           m <- std_move_backward (iter pos_value) (end_ v)
                  (Ptr Other (N.to_nat (size_t_add (size_ v) 1))) m ;;
           tmp <- ArrayPtr_.set (ArrayPtr_.with_cells tmp (m_other m))
                    pos_value value ;;
           Ret (MkSimpleVector tmp (size_ v) new_capacity)) ;;
  Ret (MkSimpleVector (items_ v1) (size_t_incr (size_ v1)) (capacity_ v1),
       pos_value).

(** [PopBack()] *)
Definition PopBack (bm : build) (v : vec) : outcome vec :=
  assert_ bm (negb (size_ v =? 0)) ;;;
  Ret (MkSimpleVector (items_ v) (size_t_decr (size_ v)) (capacity_ v)).

(** [Erase(ConstIterator pos)]; returns the vector and the iterator
    [pos]. *)
Definition Erase (bm : build) (v : vec) (pos : N) : outcome (vec * N) :=
  assert_ bm ((0 <=? pos) && (pos <? size_ v)) ;;;
  m <- std_move (ptr_next (iter pos)) (end_ v) (iter pos)
         (mem_of (items_ v) ArrayPtr_.empty) ;;
  Ret (MkSimpleVector (ArrayPtr_.with_cells (items_ v) (m_own m))
         (size_t_decr (size_ v)) (capacity_ v),
       pos).

(** [SimpleVector(ReserveProxyObj capacity_to_reserve)] *)
Definition SimpleVector_reserved (capacity_to_reserve : ReserveProxyObj)
  : outcome vec :=
  Reserve SimpleVector_default (ReserveCapasity capacity_to_reserve).

(** *** The comparison operators *)

Definition operator_eq (lhs rhs : vec) : outcome bool :=
  if GetSize lhs =? GetSize rhs then
    std_equal (Ptr Own 0) (Ptr Own (N.to_nat (size_ lhs))) (Ptr Other 0)
      (mem_of (items_ lhs) (items_ rhs))
  else Ret false.

Definition operator_ne (lhs rhs : vec) : outcome bool :=
  b <- operator_eq lhs rhs ;; Ret (negb b).

Definition operator_lt (lhs rhs : vec) : outcome bool :=
  std_lexicographical_compare
    (Ptr Own 0) (Ptr Own (N.to_nat (size_ lhs)))
    (Ptr Other 0) (Ptr Other (N.to_nat (size_ rhs)))
    (mem_of (items_ lhs) (items_ rhs)).

Definition operator_le (lhs rhs : vec) : outcome bool :=
  e <- operator_eq lhs rhs ;;
  if e then Ret true else operator_lt lhs rhs.

Definition operator_gt (lhs rhs : vec) : outcome bool :=
  operator_lt rhs lhs.

Definition operator_ge (lhs rhs : vec) : outcome bool :=
  e <- operator_eq lhs rhs ;;
  if e then Ret true else operator_lt rhs lhs.
End SimpleVector.

(** ** The assignment operators

    [operator=] compares the addresses of its two operands, so the
    operands are given by their addresses in a store of vector objects and
    the same address may be passed twice. Using an address at which no
    vector lives is undefined. *)
Abbreviation objects T := (list (SimpleVector T)).

Section Assignment.
Context {T : Type} `{Element T}.

Abbreviation vec := (SimpleVector T).

Definition deref (st : objects T) (a : nat) : outcome vec :=
  match st !! a with
  | Some v => Ret v
  | None => Undefined
  end.

(** [SimpleVector& operator=(const SimpleVector& rhs)] *)
Definition copy_assign (st : objects T) (this rhs : nat)
  : outcome (objects T) :=
  self <- deref st this ;;
  r <- deref st rhs ;;
  if negb (this =? rhs)%nat then
    if IsEmpty r then Ret (<[this := Clear self]> st)
    else
      tmp <- SimpleVector_sized (size_ r) ;;
      m <- std_uninitialized_copy (Ptr Other 0)
             (Ptr Other (N.to_nat (size_ r))) (begin_ tmp)
             (mem_of (items_ tmp) (items_ r)) ;;
      let tmp := MkSimpleVector (ArrayPtr_.with_cells (items_ tmp) (m_own m))
                   (size_ tmp) (capacity_ tmp) in
      let '(self, tmp) := swap self tmp in
      Ret (<[this := self]> st)
  else Ret st.

(** [SimpleVector& operator=(SimpleVector&& rhs)] *)
Definition move_assign_vec (st : objects T) (this rhs : nat)
  : outcome (objects T) :=
  self <- deref st this ;;
  r <- deref st rhs ;;
  if negb (this =? rhs)%nat then
    if IsEmpty r then Ret (<[this := Clear self]> st)
    else
      let '(self, r) := swap self r in
      Ret (<[rhs := r]> (<[this := self]> st))
  else Ret st.
End Assignment.

(** ** The data-model invariant and the logical content *)
Section Invariant.
Context {T : Type} `{Element T}.

(** The array the vector owns. *)
Definition buffer (v : SimpleVector T) : list T := ArrayPtr_.cells (items_ v).

(** The owned array has [capacity_] cells, [size_] does not exceed
    [capacity_], and [capacity_] is a value of [size_t]. *)
Definition wf (v : SimpleVector T) : Prop :=
  length (buffer v) = N.to_nat (capacity_ v) /\
  size_ v <= capacity_ v /\
  capacity_ v <= SIZE_MAX.

(** The sequence [[begin(), end())]. *)
Definition contents (v : SimpleVector T) : list T :=
  take (N.to_nat (size_ v)) (buffer v).
End Invariant.

(** ** [int] elements, to run the code on examples *)
#[export] Instance Element_Z : Element Z := {|
  Type_default := 0%Z;
  new_array := fun n => replicate n 0%Z;
  new_array_length := fun n => length_replicate n 0%Z;
  moved_from := fun x => x;
  elem_eq := Z.eqb;
  elem_lt := Z.ltb
|}.

(** ** One mutating operation of the container *)
Inductive operation (T : Type) : Type :=
| OpPushBack (item : T)
| OpPushBack_rvalue (item : T)
| OpInsert (pos : N) (value : T)
| OpInsert_rvalue (pos : N) (value : T)
| OpErase (pos : N)
| OpPopBack
| OpClear
| OpResize (new_size : N)
| OpReserve (new_capacity : N).
Arguments OpPushBack {T} item.
Arguments OpPushBack_rvalue {T} item.
Arguments OpInsert {T} pos value.
Arguments OpInsert_rvalue {T} pos value.
Arguments OpErase {T} pos.
Arguments OpPopBack {T}.
Arguments OpClear {T}.
Arguments OpResize {T} new_size.
Arguments OpReserve {T} new_capacity.

Section Operations.
Context {T : Type} `{Element T}.

(** The vector after the call. *)
Definition perform (bm : build) (op : operation T) (v : SimpleVector T)
  : outcome (SimpleVector T) :=
  match op with
  | OpPushBack item => PushBack v item
  | OpPushBack_rvalue item => PushBack_rvalue v item
  | OpInsert pos value => r <- Insert bm v pos value ;; Ret (fst r)
  | OpInsert_rvalue pos value => r <- Insert_rvalue bm v pos value ;; Ret (fst r)
  | OpErase pos => r <- Erase bm v pos ;; Ret (fst r)
  | OpPopBack => PopBack bm v
  | OpClear => Ret (Clear v)
  | OpResize new_size => Resize v new_size
  | OpReserve new_capacity => Reserve v new_capacity
  end.

(** What the caller has to guarantee: a position inside the sequence, a
    non-empty vector for [PopBack], a [size_t] argument. *)
Definition precondition (op : operation T) (v : SimpleVector T) : Prop :=
  match op with
  | OpInsert pos _ | OpInsert_rvalue pos _ => pos <= size_ v
  | OpErase pos => pos < size_ v
  | OpPopBack => 0 < size_ v
  | OpResize n | OpReserve n => n <= SIZE_MAX
  | _ => True
  end.
End Operations.

(** ** A caller's loop *)
Section Callers.
Context {T : Type} `{Element T}.

(** [for (const auto& x : xs) v.PushBack(x);] *)
Fixpoint PushBack_all (v : SimpleVector T) (xs : list T)
  : outcome (SimpleVector T) :=
  match xs with
  | [] => Ret v
  | x :: xs' => v' <- PushBack v x ;; PushBack_all v' xs'
  end.
End Callers.

(** ** Definitions used to state the properties *)
Section Specification.
Context {T : Type} `{Element T}.

(** The growth rule of [PushBack] and [Insert]. *)
Definition grown (v : SimpleVector T) : N :=
  if size_ v <? capacity_ v then capacity_ v else N.max 1 (2 * capacity_ v).

(** What [Resize(n)] leaves in [[begin(), end())]. *)
Definition resized (v : SimpleVector T) (n : N) : list T :=
  if n <=? size_ v then take (N.to_nat n) (contents v)
  else if n =? capacity_ v then take (N.to_nat n) (buffer v)
  else contents v ++ replicate (N.to_nat (n - size_ v)) Type_default.

(** What [std::equal] and [std::lexicographical_compare] compute on two
    sequences. *)
Fixpoint equal_seq (xs ys : list T) : bool :=
  match xs, ys with
  | [], [] => true
  | x :: xs', y :: ys' => elem_eq x y && equal_seq xs' ys'
  | _, _ => false
  end.

Fixpoint less_seq (xs ys : list T) : bool :=
  match xs, ys with
  | x :: xs', y :: ys' =>
      if elem_lt x y then true
      else if elem_lt y x then false
      else less_seq xs' ys'
  | [], _ :: _ => true
  | _, [] => false
  end.

(** Pairwise equality, as the specification words it: equal elements at
    every index. *)
Definition pairwise_equal (xs ys : list T) : Prop :=
  forall i x y, xs !! i = Some x -> ys !! i = Some y -> elem_eq x y = true.

(** Two elements neither of which is less than the other; for an element
    type whose [operator==] agrees with its [operator<] these are the equal
    elements. *)
Definition equivalent (x y : T) : Prop :=
  elem_lt x y = false /\ elem_lt y x = false.

(** Lexicographic order, as the specification words it: the sequences
    agree (by [same]) on their first [k] elements, and there either the
    left one ends and the right one goes on, or the element of the left one
    is less than that of the right one. *)
Definition lex_less (same : T -> T -> Prop) (xs ys : list T) : Prop :=
  exists k : nat,
    (forall i x y, (i < k)%nat -> xs !! i = Some x -> ys !! i = Some y ->
                   same x y) /\
    (k <= length xs)%nat /\ (k <= length ys)%nat /\
    ((k = length xs /\ (k < length ys)%nat) \/
     (exists x y, xs !! k = Some x /\ ys !! k = Some y /\ elem_lt x y = true)).

Definition lexicographically_less : list T -> list T -> Prop :=
  lex_less equivalent.

(** *** Auxiliary definitions of the proofs *)

Definition flip (b : block) : block :=
  match b with Own => Other | Other => Own end.

(** The memory whose array [b] is [src] and whose other array is [dst]. *)
Definition mem2 (b : block) (src dst : list T) : memory T :=
  match b with Own => Mem src dst | Other => Mem dst src end.

(** The cells [pos .. end()) after [std::move(pos + 1, end(), pos)], where
    [y] is the element at [pos] and [xs] are the elements after it: every
    element of [xs] moves one cell down; each source cell is left
    moved-from and, but for the last one, overwritten by the next step. *)
Fixpoint shift_down (y : T) (xs : list T) : list T :=
  match xs with
  | [] => [y]
  | x :: xs' => x :: shift_down (moved_from x) xs'
  end.

(** The cells [pos .. end()] after
    [std::copy_backward(pos, end(), end() + 1)], where [xs] are the
    elements from [pos] on and [y] is what the cell at [end()] held: every
    element of [xs] is copied one cell up, from the last to the first. *)
Definition copy_up (xs : list T) (y : T) : list T :=
  match xs with
  | [] => [y]
  | x :: _ => x :: xs
  end.

(** The same after [std::move_backward(pos, end(), end() + 1)]: the cell
    of the first element is left moved-from. *)
Definition move_up (xs : list T) (y : T) : list T :=
  match xs with
  | [] => [y]
  | x :: _ => moved_from x :: xs
  end.
End Specification.

(** ** Concrete vectors of [int] *)

(** [SimpleVector<int>{1, 2, 3}]. *)
Definition v123 : SimpleVector Z :=
  MkSimpleVector (MkArrayPtr (Some [1; 2; 3]%Z)) 3 3.

(** [SimpleVector<int>{1, 2}] after [PopBack()]: size 1, capacity 2, and
    the popped [2] still in the second cell. *)
Definition v1_of_2 : SimpleVector Z :=
  MkSimpleVector (MkArrayPtr (Some [1; 2]%Z)) 1 2.

(** The empty vector left by [Clear()] on a vector of capacity 2. *)
Definition v0_of_2 : SimpleVector Z :=
  MkSimpleVector (MkArrayPtr (Some [1; 2]%Z)) 0 2.

(** * Properties of the standard algorithms *)
Section AlgorithmFacts.
Context {T : Type} `{Element T}.
Implicit Types (l xs ys src dst o : list T) (m : memory T) (b : block).

Lemma load_src b src dst i x :
  src !! i = Some x -> load (mem2 b src dst) (Ptr b i) = Ret x.
Proof. intros Hx. unfold load; destruct b; simpl; by rewrite Hx. Qed.

Lemma load_dst b src dst i x :
  dst !! i = Some x -> load (mem2 b src dst) (Ptr (flip b) i) = Ret x.
Proof. intros Hx. unfold load; destruct b; simpl; by rewrite Hx. Qed.

Lemma store_src b src dst i x :
  (i < length src)%nat ->
  store (mem2 b src dst) (Ptr b i) x = Ret (mem2 b (<[i:=x]> src) dst).
Proof.
  intros Hi. unfold store; destruct b; simpl; by rewrite decide_True.
Qed.

Lemma store_dst b src dst i x :
  (i < length dst)%nat ->
  store (mem2 b src dst) (Ptr (flip b) i) x = Ret (mem2 b src (<[i:=x]> dst)).
Proof.
  intros Hi. unfold store; destruct b; simpl; by rewrite decide_True.
Qed.

Lemma insert_middle l1 l2 (x y : T) :
  <[length l1 := y]> (l1 ++ x :: l2) = l1 ++ y :: l2.
Proof.
  replace (length l1) with (length l1 + 0)%nat by lia.
  by rewrite insert_app_r.
Qed.

Lemma lookup_middle l1 l2 (x : T) : (l1 ++ x :: l2) !! length l1 = Some x.
Proof. by apply list_lookup_middle. Qed.

Lemma middle_lt l1 l2 (x : T) : (length l1 < length (l1 ++ x :: l2))%nat.
Proof. rewrite length_app; simpl; lia. Qed.

Lemma snoc_app l1 l2 (x : T) : (l1 ++ [x]) ++ l2 = l1 ++ x :: l2.
Proof. by rewrite <- app_assoc. Qed.

Lemma length_snoc l1 (x : T) : length (l1 ++ [x]) = S (length l1).
Proof. rewrite length_app; simpl; lia. Qed.

(** *** Between two arrays *)

Lemma copy_loop_cross b xs : forall s1 s2 d1 ys d2,
  length ys = length xs ->
  copy_loop (length xs) (Ptr b (length s1)) (Ptr (flip b) (length d1))
    (mem2 b (s1 ++ xs ++ s2) (d1 ++ ys ++ d2))
  = Ret (mem2 b (s1 ++ xs ++ s2) (d1 ++ xs ++ d2)).
Proof.
  induction xs as [|x xs IH]; intros s1 s2 d1 ys d2 Hlen.
  - destruct ys; [done | discriminate].
  - destruct ys as [|y ys]; [discriminate |]. simpl in *.
    rewrite (load_src _ _ _ _ x) by apply lookup_middle; simpl.
    rewrite store_dst by apply middle_lt; simpl.
    rewrite insert_middle. unfold ptr_next; simpl.
    specialize (IH (s1 ++ [x]) s2 (d1 ++ [x]) ys d2).
    rewrite !length_snoc, !snoc_app in IH. apply IH; lia.
Qed.

Lemma move_loop_cross b xs : forall s1 s2 d1 ys d2,
  length ys = length xs ->
  move_loop (length xs) (Ptr b (length s1)) (Ptr (flip b) (length d1))
    (mem2 b (s1 ++ xs ++ s2) (d1 ++ ys ++ d2))
  = Ret (mem2 b (s1 ++ (moved_from <$> xs) ++ s2) (d1 ++ xs ++ d2)).
Proof.
  induction xs as [|x xs IH]; intros s1 s2 d1 ys d2 Hlen.
  - destruct ys; [done | discriminate].
  - destruct ys as [|y ys]; [discriminate |]. simpl in *.
    unfold move_assign.
    rewrite (load_src _ _ _ _ x) by apply lookup_middle; simpl.
    rewrite store_dst by apply middle_lt; simpl.
    rewrite store_src by apply middle_lt; simpl.
    rewrite !insert_middle. unfold ptr_next; simpl.
    specialize (IH (s1 ++ [moved_from x]) s2 (d1 ++ [x]) ys d2).
    rewrite !length_snoc, !snoc_app in IH. apply IH; lia.
Qed.
Lemma snoc_inv (l : list T) n :
  length l = S n -> exists l' x, l = l' ++ [x] /\ length l' = n.
Proof.
  destruct l as [|x l' _] using rev_ind; [discriminate |].
  rewrite length_snoc. intros [= <-]. by exists l', x.
Qed.

Lemma copy_backward_loop_cross b xs : forall s1 s2 d1 ys d2,
  length ys = length xs ->
  copy_backward_loop (length xs)
    (Ptr b (length (s1 ++ xs))) (Ptr (flip b) (length (d1 ++ ys)))
    (mem2 b (s1 ++ xs ++ s2) (d1 ++ ys ++ d2))
  = Ret (mem2 b (s1 ++ xs ++ s2) (d1 ++ xs ++ d2)).
Proof.
  induction xs as [|x xs IH] using rev_ind; intros s1 s2 d1 ys d2 Hlen.
  - destruct ys; [done | discriminate].
  - rewrite length_snoc in Hlen.
    destruct (snoc_inv _ _ Hlen) as (ys' & y & -> & Hys').
    rewrite !app_assoc, !length_snoc, !snoc_app. simpl.
    unfold ptr_prev; simpl.
    rewrite (load_src _ _ _ _ x) by apply lookup_middle; simpl.
    rewrite store_dst by apply middle_lt; simpl.
    rewrite insert_middle.
    specialize (IH s1 (x :: s2) d1 ys' (x :: d2) Hys').
    rewrite !app_assoc in IH. apply IH.
Qed.

Lemma move_backward_loop_cross b xs : forall s1 s2 d1 ys d2,
  length ys = length xs ->
  move_backward_loop (length xs)
    (Ptr b (length (s1 ++ xs))) (Ptr (flip b) (length (d1 ++ ys)))
    (mem2 b (s1 ++ xs ++ s2) (d1 ++ ys ++ d2))
  = Ret (mem2 b (s1 ++ (moved_from <$> xs) ++ s2) (d1 ++ xs ++ d2)).
Proof.
  induction xs as [|x xs IH] using rev_ind; intros s1 s2 d1 ys d2 Hlen.
  - destruct ys; [done | discriminate].
  - rewrite length_snoc in Hlen.
    destruct (snoc_inv _ _ Hlen) as (ys' & y & -> & Hys').
    rewrite fmap_app. simpl.
    rewrite !app_assoc, !length_snoc, !snoc_app. simpl.
    unfold ptr_prev, move_assign; simpl.
    rewrite (load_src _ _ _ _ x) by apply lookup_middle; simpl.
    rewrite store_dst by apply middle_lt; simpl.
    rewrite store_src by apply middle_lt; simpl.
    rewrite !insert_middle.
    specialize (IH s1 (moved_from x :: s2) d1 ys' (x :: d2) Hys').
    rewrite !app_assoc in IH. apply IH.
Qed.

Lemma fill_loop_spec b (value : T) ys : forall d1 d2 o,
  fill_loop (length ys) (Ptr b (length d1)) value (mem2 b (d1 ++ ys ++ d2) o)
  = Ret (mem2 b (d1 ++ replicate (length ys) value ++ d2) o).
Proof.
  induction ys as [|y ys IH]; intros d1 d2 o; [done |]. simpl.
  rewrite store_src by apply middle_lt; simpl.
  rewrite insert_middle. unfold ptr_next; simpl.
  specialize (IH (d1 ++ [value]) d2 o).
  rewrite !length_snoc, !snoc_app in IH. apply IH.
Qed.

(** *** Inside one array *)

Lemma shift_down_length y xs : length (shift_down y xs) = S (length xs).
Proof. revert y; induction xs as [|x xs IH]; intros y; simpl; [done |]. by rewrite IH. Qed.

Lemma shift_down_take y xs : take (length xs) (shift_down y xs) = xs.
Proof. revert y; induction xs as [|x xs IH]; intros y; simpl; [done |]. by rewrite IH. Qed.

Lemma load_own l o i x :
  l !! i = Some x -> load (Mem l o) (Ptr Own i) = Ret x.
Proof. apply (load_src Own). Qed.

Lemma store_own l o i x :
  (i < length l)%nat ->
  store (Mem l o) (Ptr Own i) x = Ret (Mem (<[i:=x]> l) o).
Proof. apply (store_src Own). Qed.

Lemma lookup_middle2 l1 l2 (y x : T) :
  (l1 ++ y :: x :: l2) !! S (length l1) = Some x.
Proof.
  rewrite <- (length_snoc l1 y).
  replace (l1 ++ y :: x :: l2) with ((l1 ++ [y]) ++ x :: l2)
    by apply snoc_app.
  apply lookup_middle.
Qed.

Lemma insert_middle2 l1 l2 (y x z : T) :
  <[S (length l1) := z]> (l1 ++ y :: x :: l2) = l1 ++ y :: z :: l2.
Proof.
  rewrite <- (length_snoc l1 y).
  replace (l1 ++ y :: x :: l2) with ((l1 ++ [y]) ++ x :: l2)
    by apply snoc_app.
  rewrite insert_middle. apply snoc_app.
Qed.

Lemma middle2_lt l1 l2 (y x : T) :
  (S (length l1) < length (l1 ++ y :: x :: l2))%nat.
Proof. rewrite length_app; simpl; lia. Qed.

Lemma move_loop_down xs : forall l1 y l2 o,
  move_loop (length xs) (Ptr Own (S (length l1))) (Ptr Own (length l1))
    (Mem (l1 ++ y :: xs ++ l2) o)
  = Ret (Mem (l1 ++ shift_down y xs ++ l2) o).
Proof.
  induction xs as [|x xs IH]; intros l1 y l2 o; [done |]. simpl.
  unfold move_assign.
  rewrite (load_own _ _ _ x) by apply lookup_middle2; simpl.
  rewrite store_own by apply middle_lt; simpl.
  rewrite insert_middle.
  rewrite store_own by apply middle2_lt; simpl.
  rewrite insert_middle2. unfold ptr_next; simpl.
  specialize (IH (l1 ++ [x]) (moved_from x) l2 o).
  rewrite !length_snoc, !snoc_app in IH. apply IH.
Qed.

Lemma copy_up_snoc xs x y : copy_up (xs ++ [x]) y = copy_up xs x ++ [x].
Proof. by destruct xs. Qed.

Lemma copy_backward_loop_up xs : forall l1 y l2 o,
  copy_backward_loop (length xs)
    (Ptr Own (length (l1 ++ xs))) (Ptr Own (S (length (l1 ++ xs))))
    (Mem (l1 ++ xs ++ y :: l2) o)
  = Ret (Mem (l1 ++ copy_up xs y ++ l2) o).
Proof.
  induction xs as [|x xs IH] using rev_ind; intros l1 y l2 o; [done |].
  rewrite copy_up_snoc.
  rewrite !app_assoc, !length_snoc, !snoc_app. simpl.
  unfold ptr_prev; simpl.
  rewrite (load_own _ _ _ x) by apply lookup_middle; simpl.
  rewrite store_own by apply middle2_lt; simpl.
  rewrite insert_middle2.
  specialize (IH l1 x (x :: l2) o).
  rewrite <- !app_assoc in *. simpl. apply IH.
Qed.

Lemma move_up_snoc xs x y :
  move_up (xs ++ [x]) y = move_up xs (moved_from x) ++ [x].
Proof. by destruct xs. Qed.

Lemma move_backward_loop_up xs : forall l1 y l2 o,
  move_backward_loop (length xs)
    (Ptr Own (length (l1 ++ xs))) (Ptr Own (S (length (l1 ++ xs))))
    (Mem (l1 ++ xs ++ y :: l2) o)
  = Ret (Mem (l1 ++ move_up xs y ++ l2) o).
Proof.
  induction xs as [|x xs IH] using rev_ind; intros l1 y l2 o; [done |].
  rewrite move_up_snoc.
  rewrite !app_assoc, !length_snoc, !snoc_app. simpl.
  unfold ptr_prev, move_assign; simpl.
  rewrite (load_own _ _ _ x) by apply lookup_middle; simpl.
  rewrite store_own by apply middle2_lt; simpl.
  rewrite insert_middle2.
  rewrite store_own by apply middle_lt; simpl.
  rewrite insert_middle.
  specialize (IH l1 (moved_from x) (x :: l2) o).
  rewrite <- !app_assoc in *. simpl. apply IH.
Qed.
(** *** The same facts on arbitrary arrays, by offsets *)

Lemma split3 l i n : l = take i l ++ take n (drop i l) ++ drop (i + n) l.
Proof. by rewrite <- drop_drop, !take_drop. Qed.

Lemma length_take_drop l i n :
  (i + n <= length l)%nat -> length (take n (drop i l)) = n.
Proof. intros. rewrite length_take, length_drop. lia. Qed.

Lemma copy_loop_range b src dst i j n :
  (i + n <= length src)%nat -> (j + n <= length dst)%nat ->
  copy_loop n (Ptr b i) (Ptr (flip b) j) (mem2 b src dst)
  = Ret (mem2 b src (take j dst ++ take n (drop i src) ++ drop (j + n) dst)).
Proof.
  intros Hi Hj.
  pose proof (copy_loop_cross b (take n (drop i src)) (take i src)
                (drop (i + n) src) (take j dst) (take n (drop j dst))
                (drop (j + n) dst)) as Hc.
  rewrite <- !split3, !length_take_drop, !length_take_le in Hc by lia.
  apply Hc. done.
Qed.

Lemma move_loop_range b src dst i j n :
  (i + n <= length src)%nat -> (j + n <= length dst)%nat ->
  move_loop n (Ptr b i) (Ptr (flip b) j) (mem2 b src dst)
  = Ret (mem2 b
           (take i src ++ (moved_from <$> take n (drop i src))
              ++ drop (i + n) src)
           (take j dst ++ take n (drop i src) ++ drop (j + n) dst)).
Proof.
  intros Hi Hj.
  pose proof (move_loop_cross b (take n (drop i src)) (take i src)
                (drop (i + n) src) (take j dst) (take n (drop j dst))
                (drop (j + n) dst)) as Hc.
  rewrite <- !split3, !length_take_drop, !length_take_le in Hc by lia.
  apply Hc. done.
Qed.

Lemma copy_backward_loop_range b src dst i j n :
  (i + n <= length src)%nat -> (j + n <= length dst)%nat ->
  copy_backward_loop n (Ptr b (i + n)) (Ptr (flip b) (j + n)) (mem2 b src dst)
  = Ret (mem2 b src (take j dst ++ take n (drop i src) ++ drop (j + n) dst)).
Proof.
  intros Hi Hj.
  pose proof (copy_backward_loop_cross b (take n (drop i src)) (take i src)
                (drop (i + n) src) (take j dst) (take n (drop j dst))
                (drop (j + n) dst)) as Hc.
  rewrite <- !split3, !length_app, !length_take_drop, !length_take_le in Hc
    by lia.
  apply Hc. done.
Qed.

Lemma move_backward_loop_range b src dst i j n :
  (i + n <= length src)%nat -> (j + n <= length dst)%nat ->
  move_backward_loop n (Ptr b (i + n)) (Ptr (flip b) (j + n)) (mem2 b src dst)
  = Ret (mem2 b
           (take i src ++ (moved_from <$> take n (drop i src))
              ++ drop (i + n) src)
           (take j dst ++ take n (drop i src) ++ drop (j + n) dst)).
Proof.
  intros Hi Hj.
  pose proof (move_backward_loop_cross b (take n (drop i src)) (take i src)
                (drop (i + n) src) (take j dst) (take n (drop j dst))
                (drop (j + n) dst)) as Hc.
  rewrite <- !split3, !length_app, !length_take_drop, !length_take_le in Hc
    by lia.
  apply Hc. done.
Qed.

Lemma fill_loop_range b (value : T) l o i n :
  (i + n <= length l)%nat ->
  fill_loop n (Ptr b i) value (mem2 b l o)
  = Ret (mem2 b (take i l ++ replicate n value ++ drop (i + n) l) o).
Proof.
  intros Hi.
  pose proof (fill_loop_spec b value (take n (drop i l)) (take i l)
                (drop (i + n) l) o) as Hc.
  rewrite <- !split3, !length_take_drop, !length_take_le in Hc by lia.
  apply Hc.
Qed.

Lemma split_at l i y :
  l !! i = Some y -> forall n,
  l = take i l ++ y :: take n (drop (S i) l) ++ drop (S i + n) l.
Proof.
  intros Hy n. rewrite <- drop_drop, take_drop.
  by rewrite <- (drop_S _ _ _ Hy), take_drop.
Qed.

Lemma move_loop_down_range l o p n y :
  (S p + n <= length l)%nat -> l !! p = Some y ->
  move_loop n (Ptr Own (S p)) (Ptr Own p) (Mem l o)
  = Ret (Mem (take p l ++ shift_down y (take n (drop (S p) l))
                ++ drop (S p + n) l) o).
Proof.
  intros Hp Hy.
  pose proof (move_loop_down (take n (drop (S p) l)) (take p l) y
                (drop (S p + n) l) o) as Hc.
  rewrite <- (split_at l p y Hy n) in Hc.
  rewrite length_take_drop, length_take_le in Hc by lia. apply Hc.
Qed.

Lemma split_before l q y :
  l !! q = Some y -> forall p n, (p + n = q)%nat ->
  l = take p l ++ take n (drop p l) ++ y :: drop (S q) l.
Proof.
  intros Hy p n <-. rewrite <- (drop_S _ _ _ Hy). apply split3.
Qed.

Lemma copy_backward_loop_up_range l o p n y :
  (p + n < length l)%nat -> l !! (p + n)%nat = Some y ->
  copy_backward_loop n (Ptr Own (p + n)) (Ptr Own (S (p + n))) (Mem l o)
  = Ret (Mem (take p l ++ copy_up (take n (drop p l)) y
                ++ drop (S (p + n)) l) o).
Proof.
  intros Hp Hy.
  pose proof (copy_backward_loop_up (take n (drop p l)) (take p l) y
                (drop (S (p + n)) l) o) as Hc.
  rewrite <- (split_before l _ y Hy p n eq_refl) in Hc.
  rewrite length_app, length_take_drop, length_take_le in Hc by lia.
  apply Hc.
Qed.

Lemma move_backward_loop_up_range l o p n y :
  (p + n < length l)%nat -> l !! (p + n)%nat = Some y ->
  move_backward_loop n (Ptr Own (p + n)) (Ptr Own (S (p + n))) (Mem l o)
  = Ret (Mem (take p l ++ move_up (take n (drop p l)) y
                ++ drop (S (p + n)) l) o).
Proof.
  intros Hp Hy.
  pose proof (move_backward_loop_up (take n (drop p l)) (take p l) y
                (drop (S (p + n)) l) o) as Hc.
  rewrite <- (split_before l _ y Hy p n eq_refl) in Hc.
  rewrite length_app, length_take_drop, length_take_le in Hc by lia.
  apply Hc.
Qed.
(** *** The algorithms as the container calls them *)

Lemma distance_le b i k :
  (i <= k)%nat -> distance (Ptr b i) (Ptr b k) = Ret (k - i)%nat.
Proof.
  intros Hik. unfold distance; simpl.
  assert (block_eqb b b = true) as -> by by destruct b.
  by rewrite (proj2 (Nat.leb_le i k) Hik).
Qed.

Lemma std_fill_own (value : T) l o i k :
  (i <= k <= length l)%nat ->
  std_fill (Ptr Own i) (Ptr Own k) value (Mem l o)
  = Ret (Mem (take i l ++ replicate (k - i) value ++ drop k l) o).
Proof.
  intros Hik. unfold std_fill. rewrite distance_le by lia. simpl.
  rewrite (fill_loop_range Own value l o) by lia.
  by replace (i + (k - i))%nat with k by lia.
Qed.

Lemma std_fill_other (value : T) l o i k :
  (i <= k <= length l)%nat ->
  std_fill (Ptr Other i) (Ptr Other k) value (Mem o l)
  = Ret (Mem o (take i l ++ replicate (k - i) value ++ drop k l)).
Proof.
  intros Hik. unfold std_fill. rewrite distance_le by lia. simpl.
  rewrite (fill_loop_range Other value l o) by lia.
  by replace (i + (k - i))%nat with k by lia.
Qed.

Lemma std_copy_to_other src dst i k j :
  (i <= k <= length src)%nat -> (j + (k - i) <= length dst)%nat ->
  std_copy (Ptr Own i) (Ptr Own k) (Ptr Other j) (Mem src dst)
  = Ret (Mem src (take j dst ++ take (k - i) (drop i src)
                    ++ drop (j + (k - i)) dst)).
Proof.
  intros Hik Hj. unfold std_copy. rewrite distance_le by lia. simpl.
  by rewrite (copy_loop_range Own src dst) by lia.
Qed.

Lemma std_copy_to_own src dst i k j :
  (i <= k <= length src)%nat -> (j + (k - i) <= length dst)%nat ->
  std_copy (Ptr Other i) (Ptr Other k) (Ptr Own j) (Mem dst src)
  = Ret (Mem (take j dst ++ take (k - i) (drop i src)
                ++ drop (j + (k - i)) dst) src).
Proof.
  intros Hik Hj. unfold std_copy. rewrite distance_le by lia. simpl.
  by rewrite (copy_loop_range Other src dst) by lia.
Qed.

Lemma std_move_to_other src dst i k j :
  (i <= k <= length src)%nat -> (j + (k - i) <= length dst)%nat ->
  std_move (Ptr Own i) (Ptr Own k) (Ptr Other j) (Mem src dst)
  = Ret (Mem (take i src ++ (moved_from <$> take (k - i) (drop i src))
                ++ drop k src)
             (take j dst ++ take (k - i) (drop i src)
                ++ drop (j + (k - i)) dst)).
Proof.
  intros Hik Hj. unfold std_move. rewrite distance_le by lia. simpl.
  rewrite (move_loop_range Own src dst) by lia.
  by replace (i + (k - i))%nat with k by lia.
Qed.

Lemma std_copy_backward_to_other src dst i k e :
  (i <= k <= length src)%nat -> (k - i <= e <= length dst)%nat ->
  std_copy_backward (Ptr Own i) (Ptr Own k) (Ptr Other e) (Mem src dst)
  = Ret (Mem src (take (e - (k - i)) dst ++ take (k - i) (drop i src)
                    ++ drop e dst)).
Proof.
  intros Hik He. unfold std_copy_backward. rewrite distance_le by lia. simpl.
  pose proof (copy_backward_loop_range Own src dst i (e - (k - i)) (k - i))
    as Hc.
  replace (i + (k - i))%nat with k in Hc by lia.
  replace (e - (k - i) + (k - i))%nat with e in Hc by lia.
  apply Hc; lia.
Qed.

Lemma std_move_backward_to_other src dst i k e :
  (i <= k <= length src)%nat -> (k - i <= e <= length dst)%nat ->
  std_move_backward (Ptr Own i) (Ptr Own k) (Ptr Other e) (Mem src dst)
  = Ret (Mem (take i src ++ (moved_from <$> take (k - i) (drop i src))
                ++ drop k src)
             (take (e - (k - i)) dst ++ take (k - i) (drop i src)
                ++ drop e dst)).
Proof.
  intros Hik He. unfold std_move_backward. rewrite distance_le by lia. simpl.
  pose proof (move_backward_loop_range Own src dst i (e - (k - i)) (k - i))
    as Hc.
  replace (i + (k - i))%nat with k in Hc by lia.
  replace (e - (k - i) + (k - i))%nat with e in Hc by lia.
  apply Hc; lia.
Qed.

Lemma std_move_down l o p k y :
  (S p <= k <= length l)%nat -> l !! p = Some y ->
  std_move (Ptr Own (S p)) (Ptr Own k) (Ptr Own p) (Mem l o)
  = Ret (Mem (take p l ++ shift_down y (take (k - S p) (drop (S p) l))
                ++ drop k l) o).
Proof.
  intros Hp Hy. unfold std_move. rewrite distance_le by lia. simpl.
  rewrite (move_loop_down_range l o p _ y) by (done || lia).
  by replace (S p + (k - S p))%nat with k by lia.
Qed.

Lemma std_copy_backward_up l o p k y :
  (p <= k < length l)%nat -> l !! k = Some y ->
  std_copy_backward (Ptr Own p) (Ptr Own k) (Ptr Own (S k)) (Mem l o)
  = Ret (Mem (take p l ++ copy_up (take (k - p) (drop p l)) y
                ++ drop (S k) l) o).
Proof.
  intros Hp Hy. unfold std_copy_backward. rewrite distance_le by lia. simpl.
  pose proof (copy_backward_loop_up_range l o p (k - p) y) as Hc.
  replace (p + (k - p))%nat with k in Hc by lia.
  apply Hc; (done || lia).
Qed.

Lemma std_move_backward_up l o p k y :
  (p <= k < length l)%nat -> l !! k = Some y ->
  std_move_backward (Ptr Own p) (Ptr Own k) (Ptr Own (S k)) (Mem l o)
  = Ret (Mem (take p l ++ move_up (take (k - p) (drop p l)) y
                ++ drop (S k) l) o).
Proof.
  intros Hp Hy. unfold std_move_backward. rewrite distance_le by lia. simpl.
  pose proof (move_backward_loop_up_range l o p (k - p) y) as Hc.
  replace (p + (k - p))%nat with k in Hc by lia.
  apply Hc; (done || lia).
Qed.
End AlgorithmFacts.

(** * Properties of [ArrayPtr] and of [size_t] arithmetic *)
Section ArrayPtrFacts.
Context {T : Type} `{Element T}.
Implicit Types (a : ArrayPtr T) (l : list T).

Lemma cells_create n : ArrayPtr_.cells (ArrayPtr_.create n) = new_array (N.to_nat n).
Proof.
  unfold ArrayPtr_.create. destruct (N.eqb_spec n 0) as [-> | Hn]; simpl; [| done].
  symmetry. apply nil_length_inv, new_array_length.
Qed.

Lemma length_cells_create n :
  length (ArrayPtr_.cells (ArrayPtr_.create n)) = N.to_nat n.
Proof. rewrite cells_create. apply new_array_length. Qed.

Lemma cells_with_cells a l :
  length l = length (ArrayPtr_.cells a) ->
  ArrayPtr_.cells (ArrayPtr_.with_cells a l) = l.
Proof.
  unfold ArrayPtr_.with_cells, ArrayPtr_.cells.
  destruct a as [[r|]]; simpl; [done |].
  intros Hl. symmetry. by apply nil_length_inv.
Qed.

Lemma with_cells_twice a l l' :
  ArrayPtr_.with_cells (ArrayPtr_.with_cells a l) l' = ArrayPtr_.with_cells a l'.
Proof. by destruct a as [[r|]]. Qed.

Lemma set_spec a i x :
  (N.to_nat i < length (ArrayPtr_.cells a))%nat ->
  ArrayPtr_.set a i x
  = Ret (ArrayPtr_.with_cells a (<[N.to_nat i := x]> (ArrayPtr_.cells a))).
Proof. intros Hi. unfold ArrayPtr_.set. by rewrite decide_True. Qed.

Lemma cells_set a i x a' :
  ArrayPtr_.set a i x = Ret a' ->
  ArrayPtr_.cells a' = <[N.to_nat i := x]> (ArrayPtr_.cells a).
Proof.
  unfold ArrayPtr_.set. case_decide; [| discriminate].
  intros [= <-]. apply cells_with_cells, length_insert.
Qed.

Lemma get_spec a i x :
  ArrayPtr_.cells a !! N.to_nat i = Some x -> ArrayPtr_.get a i = Ret x.
Proof. intros Hx. unfold ArrayPtr_.get. by rewrite Hx. Qed.
End ArrayPtrFacts.

Lemma size_t_incr_lt n : n < SIZE_MAX -> size_t_incr n = n + 1.
Proof.
  unfold size_t_incr, size_t_add, size_t_wrap, SIZE_MAX.
  intros Hn. apply N.mod_small. lia.
Qed.

Lemma size_t_add_1 n : n < SIZE_MAX -> size_t_add n 1 = n + 1.
Proof. apply size_t_incr_lt. Qed.

Lemma size_t_decr_pos n : 0 < n <= SIZE_MAX -> size_t_decr n = n - 1.
Proof.
  unfold size_t_decr, size_t_wrap, SIZE_MAX. intros Hn.
  change (2 ^ 64) with 18446744073709551616 in *.
  replace (n + (18446744073709551616 - 1))
    with ((n - 1) + 1 * 18446744073709551616) by lia.
  rewrite N.Div0.mod_add. apply N.mod_small. lia.
Qed.

Lemma size_t_double n : n <= PTRDIFF_MAX -> size_t_mul n 2 = 2 * n.
Proof.
  unfold size_t_mul, size_t_wrap, PTRDIFF_MAX. intros Hn.
  change (2 ^ 64) with 18446744073709551616 in *.
  change (2 ^ 63) with 9223372036854775808 in *.
  rewrite N.mod_small; lia.
Qed.

Ltac len :=
  repeat (progress (simpl length;
    rewrite ?length_insert, ?length_app, ?length_fmap, ?length_take,
      ?length_drop, ?length_replicate, ?length_cells_create));
  unfold SIZE_MAX, PTRDIFF_MAX in *; try lia.

(** * Properties of the container's operations *)
Section VectorFacts.
Context {T : Type} `{Element T}.
Implicit Types (v : SimpleVector T) (x : T).

Lemma wf_size_le v : wf v -> (N.to_nat (size_ v) <= length (buffer v))%nat.
Proof. intros (Hlen & Hle & _). lia. Qed.

Lemma buffer_with_cells (a : ArrayPtr T) (l : list T) s c :
  length l = length (ArrayPtr_.cells a) ->
  buffer (MkSimpleVector (ArrayPtr_.with_cells a l) s c) = l.
Proof. apply cells_with_cells. Qed.

Lemma take_S_insert (l : list T) n x :
  (n < length l)%nat -> take (S n) (<[n:=x]> l) = take n l ++ [x].
Proof.
  intros Hn. rewrite (take_S_r _ _ x) by by apply list_lookup_insert_eq.
  by rewrite take_insert_ge.
Qed.

Lemma tmp_cells n (l : list T) :
  length l = N.to_nat n ->
  ArrayPtr_.cells (ArrayPtr_.with_cells (ArrayPtr_.create n) l) = l.
Proof. intros Hl. apply cells_with_cells. by rewrite length_cells_create. Qed.

Lemma wf_intro (a : ArrayPtr T) s c :
  length (ArrayPtr_.cells a) = N.to_nat c -> s <= c -> c <= SIZE_MAX ->
  wf (MkSimpleVector a s c).
Proof. by intros; repeat split. Qed.

Lemma PushBack_spec v x :
  wf v -> capacity_ v <= PTRDIFF_MAX ->
  exists v', PushBack v x = Ret v' /\ wf v' /\
    size_ v' = size_ v + 1 /\ capacity_ v' = grown v /\
    contents v' = contents v ++ [x].
Proof.
  intros (Hlen & Hle & Hmax) Hcap. unfold PushBack, grown, contents.
  unfold buffer in *.
  destruct (N.ltb_spec (size_ v) (capacity_ v)) as [Hlt | Hge].
  - rewrite set_spec by lia. simpl.
    rewrite size_t_incr_lt by (unfold SIZE_MAX in *; lia).
    eexists; split; [done |].
    assert (Hc : ArrayPtr_.cells
              (ArrayPtr_.with_cells (items_ v)
                 (<[N.to_nat (size_ v) := x]> (ArrayPtr_.cells (items_ v))))
            = <[N.to_nat (size_ v) := x]> (ArrayPtr_.cells (items_ v)))
      by (apply cells_with_cells, length_insert).
    split; [apply wf_intro; rewrite ?Hc; len |].
    simpl. rewrite Hc. repeat split.
    replace (N.to_nat (size_ v + 1)) with (S (N.to_nat (size_ v))) by lia.
    apply take_S_insert. lia.
  - assert (size_ v = capacity_ v) as Hsc by lia.
    rewrite size_t_double by done.
    set (nc := N.max 1 (2 * capacity_ v)).
    assert (Hnc : size_ v < nc /\ nc <= SIZE_MAX)
      by (unfold nc, SIZE_MAX, PTRDIFF_MAX in *; lia).
    unfold mem_of, begin_, end_.
    rewrite std_copy_to_other by len.
    simpl. rewrite Nat.sub_0_r, drop_0.
    set (t := take _ (ArrayPtr_.cells (items_ v)) ++ drop _ _).
    assert (Ht : length t = N.to_nat nc) by (unfold t; len).
    rewrite set_spec by (rewrite tmp_cells; lia).
    rewrite tmp_cells by done. simpl.
    rewrite size_t_incr_lt by (unfold SIZE_MAX in *; lia).
    rewrite with_cells_twice.
    eexists; split; [done |].
    assert (Hc : ArrayPtr_.cells
              (ArrayPtr_.with_cells (ArrayPtr_.create nc)
                 (<[N.to_nat (size_ v) := x]> t))
            = <[N.to_nat (size_ v) := x]> t)
      by (apply tmp_cells; by rewrite length_insert).
    split; [apply wf_intro; rewrite ?Hc; len |].
    simpl. rewrite Hc. repeat split.
    replace (N.to_nat (size_ v + 1)) with (S (N.to_nat (size_ v))) by lia.
    rewrite take_S_insert by lia. unfold t.
    by rewrite take_app_length' by len.
Qed.
Lemma PushBack_rvalue_eq v x :
  wf v -> capacity_ v <= PTRDIFF_MAX -> PushBack_rvalue v x = PushBack v x.
Proof.
  intros (Hlen & Hle & Hmax) Hcap. unfold PushBack_rvalue, PushBack.
  unfold buffer in *.
  destruct (N.ltb_spec (size_ v) (capacity_ v)) as [Hlt | Hge]; [done |].
  rewrite size_t_double by done.
  unfold mem_of, begin_, end_.
  rewrite std_copy_to_other, std_move_to_other by len. done.
Qed.

Lemma copy_up_cons (xs : list T) y : exists c, copy_up xs y = c :: xs.
Proof. destruct xs; by eexists. Qed.

Lemma move_up_cons (xs : list T) y : exists c, move_up xs y = c :: xs.
Proof. destruct xs; by eexists. Qed.

Lemma insert_at_length (l1 l2 : list T) c x n :
  n = length l1 -> <[n := x]> (l1 ++ c :: l2) = l1 ++ x :: l2.
Proof. intros ->. apply insert_middle. Qed.

Lemma contents_insert (l : list T) p s x :
  (p <= s)%nat ->
  take p l ++ x :: take (s - p) (drop p l)
  = take p (take s l) ++ x :: drop p (take s l).
Proof.
  intros Hps. rewrite take_take, take_drop_commute.
  by replace (p `min` s)%nat with p by lia; replace (p + (s - p))%nat with s by lia.
Qed.

Lemma take_prefix (l1 l2 l3 : list T) x k :
  k = S (length l1 + length l2) -> take k (l1 ++ x :: l2 ++ l3) = l1 ++ x :: l2.
Proof.
  intros ->. replace (l1 ++ x :: l2 ++ l3) with ((l1 ++ x :: l2) ++ l3)
    by by rewrite <- app_assoc.
  apply take_app_length'. rewrite length_app; simpl; lia.
Qed.

Lemma assert_true bm (cond : bool) : cond = true -> assert_ bm cond = Ret tt.
Proof. intros ->. by destruct bm. Qed.

Lemma Insert_spec bm (v : SimpleVector T) pos x :
  wf v -> capacity_ v <= PTRDIFF_MAX -> pos <= size_ v ->
  exists v', Insert bm v pos x = Ret (v', pos) /\ wf v' /\
    size_ v' = size_ v + 1 /\ capacity_ v' = grown v /\
    contents v' = take (N.to_nat pos) (contents v)
                    ++ x :: drop (N.to_nat pos) (contents v).
Proof.
  destruct v as [a sz cp]. unfold wf, Insert, grown, contents, buffer; simpl.
  intros (Hlen & Hle & Hmax) Hcap Hpos.
  rewrite assert_true by (apply andb_true_iff; split; apply N.leb_le; lia).
  simpl. unfold mem_of, begin_, end_, iter, ptr_next; simpl.
  remember (ArrayPtr_.cells a) as cs eqn:Hcs.
  remember (N.to_nat pos) as p eqn:Hp.
  remember (N.to_nat sz) as n eqn:Hn.
  rewrite <- contents_insert by lia.
  destruct (N.ltb_spec sz cp) as [Hlt | Hge].
  - destruct (lookup_lt_is_Some_2 cs n) as [y Hy]; [lia |].
    rewrite (std_copy_backward_up _ _ _ _ y) by (done || lia). simpl.
    destruct (copy_up_cons (take (n - p) (drop p cs)) y) as [c ->].
    rewrite <- app_comm_cons.
    rewrite set_spec; rewrite cells_with_cells; rewrite <- ?Hcs, <- ?Hp; len.
    rewrite insert_at_length by len.
    rewrite with_cells_twice. simpl.
    rewrite size_t_incr_lt by len.
    eexists; split; [done |]. simpl.
    rewrite cells_with_cells by (rewrite <- Hcs; len).
    split; [repeat split; len |]. repeat split.
    replace (N.to_nat (sz + 1)) with (S n) by lia.
    apply take_prefix. len.
  - assert (sz = cp) as -> by lia.
    rewrite size_t_double by done.
    remember (N.max 1 (2 * cp)) as nc eqn:Hnc.
    remember (ArrayPtr_.cells (ArrayPtr_.create nc)) as t0 eqn:Ht0.
    assert (Hlt0 : length t0 = N.to_nat nc) by (subst t0; len).
    rewrite std_copy_to_other by len. simpl.
    rewrite Nat.sub_0_r, drop_0.
    rewrite size_t_add_1 by len.
    rewrite std_copy_backward_to_other by len. simpl.
    replace (N.to_nat (cp + 1) - (n - p))%nat with (S p) by lia.
    destruct (lookup_lt_is_Some_2 t0 p) as [z Hz]; [len |].
    rewrite (take_S_r _ p z)
      by (rewrite lookup_app_r by len; rewrite length_take_le by lia;
          by rewrite Nat.sub_diag, lookup_drop, Nat.add_0_r).
    rewrite take_app_length' by len.
    rewrite <- (app_assoc (take p cs)). simpl.
    rewrite set_spec; rewrite cells_with_cells; rewrite <- ?Ht0, <- ?Hp; len.
    rewrite insert_at_length by len.
    rewrite with_cells_twice. simpl.
    rewrite size_t_incr_lt by len.
    eexists; split; [done |]. simpl.
    rewrite cells_with_cells by (rewrite <- Ht0; len).
    split; [repeat split; len |]. repeat split.
    replace (N.to_nat (cp + 1)) with (S n) by lia.
    apply take_prefix. len.
Qed.
Lemma Insert_rvalue_eq bm (v : SimpleVector T) pos x :
  wf v -> capacity_ v <= PTRDIFF_MAX -> pos <= size_ v ->
  Insert_rvalue bm v pos x = Insert bm v pos x.
Proof.
  destruct v as [a sz cp]. unfold wf, Insert_rvalue, Insert, buffer; simpl.
  intros (Hlen & Hle & Hmax) Hcap Hpos.
  rewrite assert_true by (apply andb_true_iff; split; apply N.leb_le; lia).
  simpl. unfold mem_of, begin_, end_, iter, ptr_next; simpl.
  remember (ArrayPtr_.cells a) as cs eqn:Hcs.
  remember (N.to_nat pos) as p eqn:Hp.
  remember (N.to_nat sz) as n eqn:Hn.
  destruct (N.ltb_spec sz cp) as [Hlt | Hge].
  - destruct (lookup_lt_is_Some_2 cs n) as [y Hy]; [lia |].
    rewrite (std_copy_backward_up _ _ _ _ y) by (done || lia).
    rewrite (std_move_backward_up _ _ _ _ y) by (done || lia). simpl.
    destruct (copy_up_cons (take (n - p) (drop p cs)) y) as [c ->].
    destruct (move_up_cons (take (n - p) (drop p cs)) y) as [c' ->].
    rewrite <- !app_comm_cons.
    rewrite !set_spec; rewrite ?cells_with_cells; rewrite <- ?Hcs, <- ?Hp; len.
    by rewrite !insert_at_length, !with_cells_twice by len.
  - assert (sz = cp) as -> by lia.
    rewrite size_t_double by done.
    remember (N.max 1 (2 * cp)) as nc eqn:Hnc.
    remember (ArrayPtr_.cells (ArrayPtr_.create nc)) as t0 eqn:Ht0.
    assert (Hlt0 : length t0 = N.to_nat nc) by (subst t0; len).
    rewrite std_copy_to_other, std_move_to_other by len. simpl.
    rewrite Nat.sub_0_r, drop_0.
    rewrite size_t_add_1 by len.
    rewrite std_copy_backward_to_other, std_move_backward_to_other by len.
    simpl.
    by rewrite drop_app_length' by len.
Qed.

Lemma contents_erase (l : list T) p s :
  (S p <= s)%nat ->
  take p l ++ take (s - S p) (drop (S p) l)
  = take p (take s l) ++ drop (S p) (take s l).
Proof.
  intros Hps. rewrite take_take, take_drop_commute.
  by replace (p `min` s)%nat with p by lia;
     replace (S p + (s - S p))%nat with s by lia.
Qed.

Lemma Erase_spec bm (v : SimpleVector T) pos :
  wf v -> pos < size_ v ->
  exists v', Erase bm v pos = Ret (v', pos) /\ wf v' /\
    size_ v' = size_ v - 1 /\ capacity_ v' = capacity_ v /\
    contents v' = take (N.to_nat pos) (contents v)
                    ++ drop (S (N.to_nat pos)) (contents v).
Proof.
  destruct v as [a sz cp]. unfold wf, Erase, contents, buffer; simpl.
  intros (Hlen & Hle & Hmax) Hpos.
  rewrite assert_true by (apply andb_true_iff; split;
                          [apply N.leb_le | apply N.ltb_lt]; lia).
  simpl. unfold mem_of, end_, iter, ptr_next; simpl.
  remember (ArrayPtr_.cells a) as cs eqn:Hcs.
  remember (N.to_nat pos) as p eqn:Hp.
  remember (N.to_nat sz) as n eqn:Hn.
  rewrite <- contents_erase by lia.
  destruct (lookup_lt_is_Some_2 cs p) as [y Hy]; [lia |].
  rewrite (std_move_down _ _ _ _ y) by (done || lia). simpl.
  rewrite size_t_decr_pos by len.
  eexists; split; [done |]. simpl.
  pose proof (shift_down_length y (take (n - S p) (drop (S p) cs))) as Hsd.
  rewrite length_take_drop in Hsd by lia.
  rewrite cells_with_cells by (rewrite <- Hcs; len).
  split; [repeat split; len |]. repeat split.
  replace (N.to_nat (sz - 1)) with (p + (n - S p))%nat by lia.
  rewrite take_app_add' by len. f_equal.
  rewrite take_app_le by lia.
  rewrite <- (shift_down_take y (take (n - S p) (drop (S p) cs))) at 2.
  by rewrite length_take_drop by lia.
Qed.
Lemma Reserve_spec (v : SimpleVector T) n :
  wf v -> n <= SIZE_MAX ->
  exists v', Reserve v n = Ret v' /\ wf v' /\
    size_ v' = size_ v /\ capacity_ v' = N.max n (capacity_ v) /\
    contents v' = contents v.
Proof.
  destruct v as [a sz cp]. unfold wf, Reserve, contents, buffer; simpl.
  intros (Hlen & Hle & Hmax) Hn.
  destruct (N.leb_spec n cp) as [Hnc | Hnc].
  - eexists; split; [done |]. simpl. repeat split; (done || lia).
  - unfold mem_of, begin_, end_; simpl.
    rewrite std_move_to_other by len. simpl.
    eexists; split; [done |]. simpl.
    rewrite Nat.sub_0_r, drop_0.
    rewrite tmp_cells by len.
    split; [repeat split; len |]. repeat split; [lia |].
    rewrite take_app_le by len. rewrite take_take. f_equal. lia.
Qed.

Lemma Resize_spec (v : SimpleVector T) n :
  wf v -> n <= SIZE_MAX ->
  exists v', Resize v n = Ret v' /\ wf v' /\
    size_ v' = n /\
    capacity_ v' = (if capacity_ v <? n
                    then N.max n (size_t_mul (capacity_ v) 2)
                    else capacity_ v) /\
    contents v' = resized v n.
Proof.
  destruct v as [a sz cp]. unfold wf, Resize, resized, contents, buffer; simpl.
  intros (Hlen & Hle & Hmax) Hn.
  destruct (N.eqb_spec sz n) as [-> | Hne].
  { eexists; split; [done |]. simpl.
    rewrite (proj2 (N.leb_le n n)) by lia.
    destruct (N.ltb_spec cp n); [lia |].
    repeat split; try (done || lia). rewrite take_take. f_equal; lia. }
  destruct (N.ltb_spec sz n) as [Hlt | Hge]; simpl.
  - rewrite (proj2 (N.leb_gt n sz)) by lia.
    destruct (N.ltb_spec cp n) as [Hcn | Hcn]; simpl.
    + assert (size_t_mul cp 2 <= SIZE_MAX) as Hw.
      { unfold size_t_mul, size_t_wrap, SIZE_MAX.
        pose proof (N.mod_upper_bound (cp * 2) (2 ^ 64)). lia. }
      remember (N.max n (size_t_mul cp 2)) as nc eqn:Hnc.
      unfold mem_of, begin_, end_; simpl.
      rewrite std_move_to_other by len. simpl.
      rewrite Nat.sub_0_r, drop_0.
      rewrite std_fill_other by len. simpl.
      eexists; split; [done |]. simpl.
      rewrite tmp_cells by len.
      split; [repeat split; len |]. repeat split.
      destruct (N.eqb_spec n cp); [lia |].
      rewrite (take_app_length' (take (N.to_nat sz) (ArrayPtr_.cells a)))
        by len.
      rewrite app_assoc. rewrite take_app_length' by len.
      do 2 f_equal. lia.
    + destruct (N.ltb_spec n cp) as [Hnc | Hnc]; simpl.
      * unfold mem_of, iter; simpl.
        rewrite std_fill_own by lia. simpl.
        eexists; split; [done |]. simpl.
        rewrite cells_with_cells by len.
        split; [repeat split; len |]. repeat split.
        destruct (N.eqb_spec n cp); [lia |].
        rewrite app_assoc. rewrite take_app_length' by len.
        do 2 f_equal. lia.
      * eexists; split; [done |]. simpl.
        split; [repeat split; len |]. repeat split.
        destruct (N.eqb_spec n cp); [done | lia].
  - rewrite (proj2 (N.leb_le n sz)) by lia.
    destruct (N.ltb_spec cp n); [lia |]. simpl.
    eexists; split; [done |]. simpl.
    split; [repeat split; len |]. repeat split.
    rewrite take_take. f_equal; lia.
Qed.

Lemma PopBack_spec bm (v : SimpleVector T) :
  wf v -> 0 < size_ v ->
  exists v', PopBack bm v = Ret v' /\ wf v' /\
    size_ v' = size_ v - 1 /\ capacity_ v' = capacity_ v /\
    contents v' = take (N.to_nat (size_ v - 1)) (contents v).
Proof.
  destruct v as [a sz cp]. unfold wf, PopBack, contents, buffer; simpl.
  intros (Hlen & Hle & Hmax) Hpos.
  rewrite assert_true by (apply negb_true_iff, N.eqb_neq; lia). simpl.
  rewrite size_t_decr_pos by len.
  eexists; split; [done |]. simpl.
  split; [repeat split; len |]. repeat split.
  rewrite take_take. f_equal; lia.
Qed.

Lemma Clear_spec (v : SimpleVector T) :
  wf v ->
  wf (Clear v) /\ size_ (Clear v) = 0 /\ capacity_ (Clear v) = capacity_ v /\
  buffer (Clear v) = buffer v /\ contents (Clear v) = [].
Proof.
  intros (Hlen & Hle & Hmax). repeat split; (done || simpl; lia).
Qed.

Lemma At_inside (v : SimpleVector T) i :
  wf v -> i < size_ v ->
  exists x, At v i = Ret x /\ contents v !! N.to_nat i = Some x.
Proof.
  intros (Hlen & Hle & Hmax) Hi. unfold At, contents.
  rewrite (proj2 (N.ltb_lt _ _) Hi). simpl.
  destruct (lookup_lt_is_Some_2 (buffer v) (N.to_nat i)) as [x Hx]; [lia |].
  exists x. split; [by apply get_spec |].
  rewrite lookup_take_lt by lia. done.
Qed.

Lemma At_outside (v : SimpleVector T) i :
  At v i = Throw out_of_range <-> size_ v <= i.
Proof.
  unfold At. destruct (N.ltb_spec i (size_ v)) as [Hi | Hi]; simpl.
  - split; [| lia]. unfold ArrayPtr_.get.
    by destruct (ArrayPtr_.cells (items_ v) !! N.to_nat i).
  - done.
Qed.

Lemma SimpleVector_copy_spec (other : SimpleVector T) :
  wf other ->
  exists v', SimpleVector_copy other = Ret v' /\
    size_ v' = size_ other /\ capacity_ v' = capacity_ other /\
    buffer v' = contents other /\ contents v' = contents other.
Proof.
  destruct other as [a sz cp].
  unfold wf, SimpleVector_copy, contents, buffer; simpl.
  intros (Hlen & Hle & Hmax).
  unfold std_uninitialized_copy, mem_of; simpl.
  rewrite std_copy_to_own by len. simpl.
  eexists; split; [done |]. simpl.
  rewrite Nat.sub_0_r, drop_0.
  rewrite cells_with_cells by len.
  rewrite drop_ge, app_nil_r by len.
  repeat split. rewrite take_ge by len. done.
Qed.

Lemma SimpleVector_init_spec (init : list T) :
  N.of_nat (length init) <= SIZE_MAX ->
  exists v, SimpleVector_init init = Ret v /\ wf v /\
    size_ v = N.of_nat (length init) /\
    capacity_ v = N.of_nat (length init) /\ contents v = init.
Proof.
  intros Hmax. unfold SimpleVector_init.
  rewrite std_copy_to_own by len. simpl.
  eexists; split; [done |]. unfold wf, contents, buffer. simpl.
  rewrite Nat.sub_0_r, drop_0.
  rewrite cells_with_cells by len.
  rewrite drop_ge, app_nil_r by len.
  rewrite take_ge by done.
  repeat split; len. rewrite take_ge by len. done.
Qed.

Lemma SimpleVector_fill_spec n (value : T) :
  n <= SIZE_MAX ->
  exists v, SimpleVector_fill n value = Ret v /\ wf v /\
    size_ v = n /\ capacity_ v = n /\
    contents v = replicate (N.to_nat n) value.
Proof.
  intros Hmax. unfold SimpleVector_fill, mem_of.
  rewrite std_fill_own by len. simpl.
  eexists; split; [done |]. unfold wf, contents, buffer. simpl.
  rewrite Nat.sub_0_r.
  rewrite cells_with_cells by len.
  rewrite drop_ge, app_nil_r by len.
  repeat split; len. rewrite take_ge by len. done.
Qed.
End VectorFacts.

(** * The comparison operators *)
Section Comparison.
Context {T : Type} `{Element T}.
Implicit Types (xs ys : list T) (lhs rhs : SimpleVector T).

Lemma equal_seq_pairwise xs ys :
  equal_seq xs ys = true <-> length xs = length ys /\ pairwise_equal xs ys.
Proof.
  unfold pairwise_equal. revert ys.
  induction xs as [|x xs IH]; intros [|y ys]; simpl.
  - split; [| done]. intros _. split; [done |]. by intros i x y [=].
  - split; [done |]. by intros [[=] _].
  - split; [done |]. by intros [[=] _].
  - rewrite andb_true_iff, IH. split.
    + intros (Hxy & Hlen & Hall). split; [by f_equal |].
      intros [|i] x' y'; simpl; [by intros [= <-] [= <-] | apply Hall].
    + intros (Hlen & Hall). split; [by apply (Hall 0%nat) |].
      split; [by injection Hlen |].
      intros i x' y'. apply (Hall (S i)).
Qed.

Lemma lexicographically_less_nil_r xs : ~ lexicographically_less xs [].
Proof.
  intros (k & _ & _ & Hk & [[_ Hk'] | (x & y & _ & Hy & _)]).
  - simpl in *; lia.
  - discriminate.
Qed.

Lemma lexicographically_less_nil_l y ys : lexicographically_less [] (y :: ys).
Proof.
  exists 0%nat. split; [intros; lia |]. simpl.
  split; [lia |]. split; [lia |]. left. split; [done | lia].
Qed.

Lemma lexicographically_less_head x y xs ys :
  elem_lt x y = true -> lexicographically_less (x :: xs) (y :: ys).
Proof.
  intros Hxy. exists 0%nat. split; [intros; lia |]. simpl.
  split; [lia |]. split; [lia |]. right. by exists x, y.
Qed.

Lemma lexicographically_less_cons x y xs ys :
  elem_lt x y = false ->
  lexicographically_less (x :: xs) (y :: ys) <->
  elem_lt y x = false /\ lexicographically_less xs ys.
Proof.
  intros Hxy. split.
  - intros (k & Hpre & Hk1 & Hk2 & Hk). destruct k as [|k].
    { destruct Hk as [[Hk _] | (x' & y' & [= <-] & [= <-] & Hlt)];
        [discriminate | congruence]. }
    split; [by apply (Hpre 0%nat x y); [lia | |] |].
    exists k. split; [intros i x' y' Hi; apply (Hpre (S i)); lia |].
    simpl in *. split; [lia |]. split; [lia |].
    destruct Hk as [[Hk Hk'] | Hk]; [left; lia | by right].
  - intros (Hyx & k & Hpre & Hk1 & Hk2 & Hk). exists (S k). split.
    { intros [|i] x' y' Hi; simpl; [by intros [= <-] [= <-] |].
      apply Hpre; lia. }
    simpl. split; [lia |]. split; [lia |].
    destruct Hk as [[Hk Hk'] | Hk]; [left; lia | by right].
Qed.

Lemma lex_less_same (same1 same2 : T -> T -> Prop) xs ys :
  (forall x y, same1 x y <-> same2 x y) ->
  lex_less same1 xs ys <-> lex_less same2 xs ys.
Proof.
  intros Hsame.
  split; intros (k & Hpre & Hk); exists k; (split; [| done]);
    intros i x y Hi Hx Hy; apply Hsame; by apply (Hpre i).
Qed.

Lemma less_seq_lexicographic xs ys :
  less_seq xs ys = true <-> lexicographically_less xs ys.
Proof.
  revert ys. induction xs as [|x xs IH]; intros [|y ys]; simpl.
  - split; [done |]. intros Hl. by apply lexicographically_less_nil_r in Hl.
  - split; [| done]. intros _. apply lexicographically_less_nil_l.
  - split; [done |]. intros Hl. by apply lexicographically_less_nil_r in Hl.
  - destruct (elem_lt x y) eqn:Hxy.
    { split; [| done]. intros _. by apply lexicographically_less_head. }
    rewrite lexicographically_less_cons by done.
    destruct (elem_lt y x) eqn:Hyx.
    + split; [done |]. by intros [[=] _].
    + rewrite IH. tauto.
Qed.

Lemma load_other (l o : list T) i x :
  l !! i = Some x -> load (Mem o l) (Ptr Other i) = Ret x.
Proof. apply (load_src Other). Qed.

Lemma equal_loop_spec xs : forall ys s1 s2 d1 d2,
  length ys = length xs ->
  equal_loop (length xs) (Ptr Own (length s1)) (Ptr Other (length d1))
    (Mem (s1 ++ xs ++ s2) (d1 ++ ys ++ d2))
  = Ret (equal_seq xs ys).
Proof.
  induction xs as [|x xs IH]; intros [|y ys] s1 s2 d1 d2 Hlen;
    try discriminate; [done |]. simpl.
  rewrite (load_own _ _ _ x) by apply lookup_middle; simpl.
  rewrite (load_other _ _ _ y) by apply lookup_middle; simpl.
  destruct (elem_eq x y); [| done]. simpl. unfold ptr_next; simpl.
  specialize (IH ys (s1 ++ [x]) s2 (d1 ++ [y]) d2).
  rewrite !length_snoc, !snoc_app in IH. apply IH. by injection Hlen.
Qed.

Lemma lexicographical_compare_loop_spec xs : forall ys s1 s2 d1 d2,
  lexicographical_compare_loop (length xs) (length ys)
    (Ptr Own (length s1)) (Ptr Other (length d1))
    (Mem (s1 ++ xs ++ s2) (d1 ++ ys ++ d2))
  = Ret (less_seq xs ys).
Proof.
  induction xs as [|x xs IH]; intros [|y ys] s1 s2 d1 d2; try done. simpl.
  rewrite (load_own _ _ _ x) by apply lookup_middle; simpl.
  rewrite (load_other _ _ _ y) by apply lookup_middle; simpl.
  destruct (elem_lt x y); [done |]. destruct (elem_lt y x); [done |].
  unfold ptr_next; simpl.
  specialize (IH ys (s1 ++ [x]) s2 (d1 ++ [y]) d2).
  rewrite !length_snoc, !snoc_app in IH. apply IH.
Qed.
Lemma length_contents (v : SimpleVector T) :
  wf v -> length (contents v) = N.to_nat (size_ v).
Proof. intros (Hlen & Hle & _). unfold contents. rewrite length_take. lia. Qed.

Lemma buffer_split (v : SimpleVector T) :
  buffer v = [] ++ contents v ++ drop (N.to_nat (size_ v)) (buffer v).
Proof. unfold contents. simpl. by rewrite take_drop. Qed.

Lemma operator_lt_spec lhs rhs :
  wf lhs -> wf rhs ->
  operator_lt lhs rhs = Ret (less_seq (contents lhs) (contents rhs)).
Proof.
  intros Hl Hr. unfold operator_lt, std_lexicographical_compare, mem_of.
  rewrite !distance_le by lia. simpl. rewrite !Nat.sub_0_r.
  pose proof (lexicographical_compare_loop_spec (contents lhs) (contents rhs)
                [] (drop (N.to_nat (size_ lhs)) (buffer lhs))
                [] (drop (N.to_nat (size_ rhs)) (buffer rhs))) as Hc.
  rewrite <- !buffer_split, !length_contents in Hc by done. apply Hc.
Qed.

Lemma operator_eq_spec lhs rhs :
  wf lhs -> wf rhs ->
  operator_eq lhs rhs = Ret (equal_seq (contents lhs) (contents rhs)).
Proof.
  intros Hl Hr. unfold operator_eq, GetSize, std_equal, mem_of.
  destruct (N.eqb_spec (size_ lhs) (size_ rhs)) as [Heq | Hne].
  - rewrite distance_le by lia. simpl. rewrite Nat.sub_0_r.
    pose proof (equal_loop_spec (contents lhs) (contents rhs)
                  [] (drop (N.to_nat (size_ lhs)) (buffer lhs))
                  [] (drop (N.to_nat (size_ rhs)) (buffer rhs))) as Hc.
    rewrite <- !buffer_split, !length_contents in Hc by done.
    apply Hc. by rewrite Heq.
  - destruct (equal_seq (contents lhs) (contents rhs)) eqn:He; [| done].
    apply equal_seq_pairwise in He as [He _].
    rewrite !length_contents in He by done. lia.
Qed.
End Comparison.

(** * The claims *)
Section Claims.
Context {T : Type} `{Element T}.
Implicit Types (v : SimpleVector T) (x : T).

Lemma obind_Ret {A B} (m : outcome A) (k : A -> outcome B) b :
  obind m k = Ret b -> exists a, m = Ret a /\ k a = Ret b.
Proof. destruct m; simpl; try discriminate. intros Hk. by eexists. Qed.

Lemma At_contents v i x :
  wf v -> i < size_ v -> contents v !! N.to_nat i = Some x -> At v i = Ret x.
Proof.
  intros Hwf Hi Hx. destruct (At_inside v i Hwf Hi) as (y & -> & Hy). congruence.
Qed.

Ltac inv_ret :=
  repeat match goal with
         | Hx : obind _ _ = Ret _ |- _ =>
             let a := fresh "a" in
             let Ha := fresh "Ha" in
             apply obind_Ret in Hx as (a & Ha & Hx)
         | Hx : (if ?c then _ else _) = Ret _ |- _ => destruct c eqn:?
         | Hx : Ret _ = Ret _ |- _ => injection Hx as <-
         end.

Lemma perform_capacity bm op v v' :
  capacity_ v <= PTRDIFF_MAX ->
  perform bm op v = Ret v' -> capacity_ v <= capacity_ v'.
Proof.
  intros Hcap Hop.
  pose proof (size_t_double _ Hcap) as Hdbl.
  destruct op; simpl in Hop;
    unfold PushBack, PushBack_rvalue, Insert, Insert_rvalue, Erase, PopBack,
      Resize, Reserve in Hop;
    inv_ret; simpl; rewrite ?Hdbl;
    repeat match goal with
           | Hx : (_ <=? _) = false |- _ => apply N.leb_gt in Hx
           | Hx : (_ && _) = true |- _ => apply andb_true_iff in Hx as [? ?]
           | Hx : (_ <? _) = true |- _ => apply N.ltb_lt in Hx
           end;
    lia.
Qed.
Lemma perform_returns bm op v :
  wf v -> capacity_ v <= PTRDIFF_MAX -> precondition op v ->
  exists v', perform bm op v = Ret v' /\ wf v'.
Proof.
  intros Hwf Hcap Hpre. destruct op; simpl in *.
  - destruct (PushBack_spec v item Hwf Hcap) as (v' & -> & ? & _). eauto.
  - rewrite PushBack_rvalue_eq by done.
    destruct (PushBack_spec v item Hwf Hcap) as (v' & -> & ? & _). eauto.
  - destruct (Insert_spec bm v pos value Hwf Hcap Hpre) as (v' & -> & ? & _).
    simpl. eauto.
  - rewrite Insert_rvalue_eq by done.
    destruct (Insert_spec bm v pos value Hwf Hcap Hpre) as (v' & -> & ? & _).
    simpl. eauto.
  - destruct (Erase_spec bm v pos Hwf Hpre) as (v' & -> & ? & _). simpl. eauto.
  - destruct (PopBack_spec bm v Hwf Hpre) as (v' & -> & ? & _). eauto.
  - eexists; split; [done |]. by apply Clear_spec.
  - destruct (Resize_spec v new_size Hwf Hpre) as (v' & -> & ? & _). eauto.
  - destruct (Reserve_spec v new_capacity Hwf Hpre) as (v' & -> & ? & _). eauto.
Qed.

(** C4. On a vector that satisfies the invariant of the data model,
    [At(i)] throws [std::out_of_range] exactly when [i >= GetSize()]; for
    [i < GetSize()] it returns the element at index [i] of the sequence.
    The call has no effect on the vector: [At] maps a vector and an index
    to an outcome and yields no new vector state. *)
Theorem At_checked v i :
  wf v ->
  (At v i = Throw out_of_range <-> GetSize v <= i) /\
  (i < GetSize v ->
   exists x, At v i = Ret x /\ contents v !! N.to_nat i = Some x).
Proof.
  intros Hwf. split; [apply At_outside | by apply At_inside].
Qed.

(** C5. After [PushBack(x)] (either overload) on a vector of size [s] and
    capacity [c]: the size is [s + 1], index [s] holds [x], the indices
    below [s] hold what they held, and the capacity is [c] if [s < c] and
    [max(1, 2 * c)] otherwise, that is when [s = c]. The vector satisfies
    the invariant of the data model and its array is one an implementation
    can hold ([c <= PTRDIFF_MAX]), so that [2 * c] does not wrap. *)
Theorem PushBack_appends v x :
  wf v -> GetCapacity v <= PTRDIFF_MAX ->
  exists v',
    PushBack v x = Ret v' /\ PushBack_rvalue v x = Ret v' /\
    GetSize v' = GetSize v + 1 /\
    At v' (GetSize v) = Ret x /\
    (forall i, i < GetSize v -> At v' i = At v i) /\
    GetCapacity v' = (if GetSize v <? GetCapacity v then GetCapacity v
                      else N.max 1 (2 * GetCapacity v)).
Proof.
  unfold GetSize, GetCapacity. intros Hwf Hcap.
  destruct (PushBack_spec v x Hwf Hcap) as (v' & Hpb & Hwf' & Hs & Hc & Hcont).
  exists v'. rewrite PushBack_rvalue_eq by done.
  pose proof (length_contents v Hwf) as Hlen.
  repeat split; try done.
  - apply At_contents; [done | lia |].
    rewrite Hcont, <- Hlen. apply lookup_middle.
  - intros i Hi. destruct (At_inside v i Hwf Hi) as (y & -> & Hy).
    apply At_contents; [done | lia |].
    rewrite Hcont. by apply lookup_app_l_Some.
Qed.

(** C6. Whichever of [PushBack], [Insert], [Erase], [PopBack], [Clear],
    [Resize] and [Reserve] is called on a vector that satisfies the
    invariant of the data model and whose capacity is at most
    [PTRDIFF_MAX], the call returns when its precondition holds, and
    whenever it returns the capacity afterwards is at least the capacity
    before. *)
Theorem capacity_never_decreases bm (op : operation T) v :
  wf v -> GetCapacity v <= PTRDIFF_MAX ->
  (precondition op v -> exists v', perform bm op v = Ret v') /\
  (forall v', perform bm op v = Ret v' -> GetCapacity v <= GetCapacity v').
Proof.
  intros Hwf Hcap. split.
  - intros Hpre.
    destruct (perform_returns bm op v Hwf Hcap Hpre) as (v' & Hv' & _). eauto.
  - intros v'. by apply perform_capacity.
Qed.

(** C7. On a vector that satisfies the invariant of the data model and
    whose capacity is at most [PTRDIFF_MAX], [Insert(begin(), x)] followed
    by [Erase(begin())] leaves the size and the sequence [[begin(), end())]
    as they were (for both overloads of [Insert]); the capacity may have
    grown. *)
Theorem Insert_Erase_begin bm v x :
  wf v -> GetCapacity v <= PTRDIFF_MAX ->
  exists v1 v2,
    Insert bm v 0 x = Ret (v1, 0) /\
    Insert_rvalue bm v 0 x = Ret (v1, 0) /\
    Erase bm v1 0 = Ret (v2, 0) /\
    GetSize v2 = GetSize v /\ contents v2 = contents v /\
    GetCapacity v <= GetCapacity v2.
Proof.
  unfold GetSize, GetCapacity. intros Hwf Hcap.
  destruct (Insert_spec bm v 0 x Hwf Hcap) as (v1 & Hi & Hwf1 & Hs1 & Hc1 & Hcont1);
    [lia |].
  destruct (Erase_spec bm v1 0 Hwf1) as (v2 & He & Hwf2 & Hs2 & Hc2 & Hcont2);
    [lia |].
  exists v1, v2. rewrite Insert_rvalue_eq by (done || lia).
  repeat split; try done.
  - lia.
  - rewrite Hcont2, Hcont1. simpl. by rewrite drop_0.
  - rewrite Hc2, Hc1. unfold grown, PTRDIFF_MAX in *.
    destruct (size_ v <? capacity_ v); lia.
Qed.

(** C8. For two vectors that satisfy the invariant of the data model:
    [a == b] holds exactly when the sizes are equal and the elements are
    pairwise equal (the capacities play no part); [a < b] holds exactly
    when the sequence of [a] is lexicographically less than that of [b];
    [a <= b], [a > b] and [a >= b] are [(a == b) || (a < b)], [b < a] and
    [(a == b) || (b < a)]. *)
Theorem comparison_operators (a b : SimpleVector T) :
  wf a -> wf b ->
  exists eq lt gt : bool,
    operator_eq a b = Ret eq /\ operator_lt a b = Ret lt /\
    operator_lt b a = Ret gt /\
    (eq = true <->
     GetSize a = GetSize b /\ pairwise_equal (contents a) (contents b)) /\
    (lt = true <-> lexicographically_less (contents a) (contents b)) /\
    operator_ne a b = Ret (negb eq) /\
    operator_le a b = Ret (eq || lt) /\
    operator_gt a b = Ret gt /\
    operator_ge a b = Ret (eq || gt).
Proof.
  intros Ha Hb. unfold operator_ne, operator_le, operator_gt, operator_ge.
  rewrite operator_eq_spec, !operator_lt_spec by done.
  exists (equal_seq (contents a) (contents b)),
    (less_seq (contents a) (contents b)), (less_seq (contents b) (contents a)).
  do 3 (split; [done |]). split; [| split; [apply less_seq_lexicographic |]].
  - rewrite equal_seq_pairwise, !length_contents by done. unfold GetSize.
    split; intros [Hs Hp]; (split; [lia | done]).
  - simpl. by destruct (equal_seq _ _).
Qed.

Lemma swap_eta (a b : SimpleVector T) : swap a b = (b, a).
Proof. by destruct a, b. Qed.

(** C9. Move-assignment between two distinct objects: a non-empty source
    is swapped with the destination; for an empty source the destination
    is cleared (size 0, its capacity and array kept) and the source is left
    as it was. No other object changes. *)
Theorem move_assign_distinct (st : objects T) (this rhs : nat) (a b : SimpleVector T) :
  this <> rhs -> st !! this = Some a -> st !! rhs = Some b ->
  exists st',
    move_assign_vec st this rhs = Ret st' /\
    (forall o, o <> this -> o <> rhs -> st' !! o = st !! o) /\
    (IsEmpty b = false -> st' !! this = Some b /\ st' !! rhs = Some a) /\
    (IsEmpty b = true ->
     st' !! rhs = Some b /\
     exists a', st' !! this = Some a' /\ GetSize a' = 0 /\
                GetCapacity a' = GetCapacity a /\ items_ a' = items_ a).
Proof.
  intros Hne Ha Hb. unfold move_assign_vec, deref. rewrite Ha, Hb. simpl.
  rewrite (proj2 (Nat.eqb_neq this rhs) Hne). simpl.
  pose proof (lookup_lt_Some _ _ _ Ha) as Hlt1.
  pose proof (lookup_lt_Some _ _ _ Hb) as Hlt2.
  destruct (IsEmpty b) eqn:Hemp.
  - eexists; split; [done |]. split; [| split; [done |]].
    + intros o Ho _. by rewrite list_lookup_insert_ne.
    + intros _. split; [by rewrite list_lookup_insert_ne |].
      exists (Clear a). by rewrite list_lookup_insert_eq.
  - destruct a as [ia sa ca], b as [ib sb cb]; simpl.
    eexists; split; [done |]. split; [| split; [| done]].
    + intros o Ho1 Ho2. by rewrite !list_lookup_insert_ne.
    + intros _. split.
      * rewrite list_lookup_insert_ne, list_lookup_insert_eq by done. done.
      * rewrite list_lookup_insert_eq; [done |]. by rewrite length_insert.
Qed.

(** C10. Assigning a vector to itself, by copy or by move, changes
    nothing. *)
Theorem self_assignment (st : objects T) (a : nat) (v : SimpleVector T) :
  st !! a = Some v ->
  copy_assign st a a = Ret st /\ move_assign_vec st a a = Ret st.
Proof.
  intros Ha. unfold copy_assign, move_assign_vec, deref. rewrite Ha. simpl.
  by rewrite Nat.eqb_refl.
Qed.
Lemma subscript_aborts v i : subscript Debug v i = Abort <-> size_ v < i.
Proof.
  unfold subscript. simpl.
  destruct (N.leb_spec i (size_ v)) as [Hi | Hi]; simpl.
  - split; [| lia]. unfold ArrayPtr_.get.
    by destruct (ArrayPtr_.cells (items_ v) !! N.to_nat i).
  - done.
Qed.

Lemma subscript_at_size bm v :
  wf v ->
  subscript bm v (size_ v)
  = match buffer v !! N.to_nat (size_ v) with
    | Some x => Ret x
    | None => Undefined
    end.
Proof.
  intros _. unfold subscript.
  rewrite assert_true by (apply N.leb_le; lia). done.
Qed.

Lemma Resize_to_capacity v :
  size_ v < capacity_ v ->
  Resize v (capacity_ v)
  = Ret (MkSimpleVector (items_ v) (capacity_ v) (capacity_ v)).
Proof.
  intros Hlt. unfold Resize.
  rewrite (proj2 (N.eqb_neq _ _)) by lia.
  rewrite (proj2 (N.ltb_lt _ _) Hlt), N.ltb_irrefl. done.
Qed.

Lemma Resize_below_capacity v n :
  wf v -> size_ v < n -> n < capacity_ v ->
  exists v', Resize v n = Ret v' /\ wf v' /\
    size_ v' = n /\ capacity_ v' = capacity_ v /\
    contents v' = contents v ++ replicate (N.to_nat (n - size_ v)) Type_default.
Proof.
  intros Hwf Hsn Hnc.
  destruct (Resize_spec v n Hwf) as (v' & Hr & Hwf' & Hs & Hc & Hcont).
  { destruct Hwf as (_ & _ & ?). lia. }
  exists v'. do 3 (split; [done |]). split.
  - rewrite Hc. by rewrite (proj2 (N.ltb_ge _ _)) by lia.
  - rewrite Hcont. unfold resized.
    rewrite (proj2 (N.leb_gt _ _)) by lia.
    by rewrite (proj2 (N.eqb_neq _ _)) by lia.
Qed.

(** The sibling of the copy constructor: after copy-assignment from a
    non-empty [rhs], the destination's capacity is the size of [rhs]. *)
Lemma copy_assign_distinct (st : objects T) (this rhs : nat) (a b : SimpleVector T) :
  this <> rhs -> st !! this = Some a -> st !! rhs = Some b ->
  wf b -> IsEmpty b = false ->
  exists st' a',
    copy_assign st this rhs = Ret st' /\
    st' !! this = Some a' /\ st' !! rhs = Some b /\ wf a' /\
    size_ a' = size_ b /\ capacity_ a' = size_ b /\
    contents a' = contents b.
Proof.
  intros Hne Ha Hb Hwf Hemp. unfold copy_assign, deref. rewrite Ha, Hb. simpl.
  rewrite (proj2 (Nat.eqb_neq this rhs) Hne), Hemp. simpl.
  destruct Hwf as (Hlen & Hle & Hmax). unfold buffer in Hlen.
  destruct (SimpleVector_fill_spec (size_ b) Type_default)
    as (tmp & Ht & (Htl & _ & _) & Hts & Htc & _); [lia |].
  unfold SimpleVector_sized. rewrite Ht. simpl.
  unfold buffer in Htl. rewrite Htc in Htl.
  unfold std_uninitialized_copy, begin_, mem_of.
  rewrite std_copy_to_own by lia. simpl.
  rewrite Nat.sub_0_r, drop_0, drop_ge, app_nil_r by lia.
  destruct a as [ia sa ca]; simpl.
  pose proof (lookup_lt_Some _ _ _ Ha) as Hlt1.
  do 2 eexists. split; [done |].
  rewrite list_lookup_insert_eq, list_lookup_insert_ne by done.
  do 2 (split; [done |]). unfold wf, contents, buffer. simpl.
  rewrite cells_with_cells by (rewrite length_take; lia).
  rewrite Hts, Htc, length_take.
  repeat split; try lia. by rewrite take_take, Nat.min_id.
Qed.
End Claims.


(** * The claims on concrete vectors of [int] *)

Ltac by_computation := repeat split; vm_compute; congruence.

Lemma v123_built : SimpleVector_init [1; 2; 3]%Z = Ret v123.
Proof. reflexivity. Qed.

Lemma v1_of_2_built :
  (v <- SimpleVector_init [1; 2]%Z ;; PopBack Debug v) = Ret v1_of_2.
Proof. reflexivity. Qed.

Lemma v0_of_2_built :
  (v <- SimpleVector_init [1; 2]%Z ;; Ret (Clear v)) = Ret v0_of_2.
Proof. reflexivity. Qed.

(** The examples of the specification. *)

Example Insert_example :
  Insert Debug v123 1 9%Z
  = Ret (MkSimpleVector (MkArrayPtr (Some [1; 9; 2; 3; 0; 0]%Z)) 4 6, 1).
Proof. reflexivity. Qed.

Example Resize_example :
  (v <- SimpleVector_sized (T := Z) 3 ;; Resize v 5)
  = Ret (MkSimpleVector (MkArrayPtr (Some [0; 0; 0; 0; 0; 0]%Z)) 5 6).
Proof. reflexivity. Qed.

Example less_example_element :
  (a <- SimpleVector_init [1; 2]%Z ;; b <- SimpleVector_init [1; 3]%Z ;;
   operator_lt a b) = Ret true.
Proof. reflexivity. Qed.

Example less_example_prefix :
  (a <- SimpleVector_init [1; 2]%Z ;; operator_lt a v123) = Ret true.
Proof. reflexivity. Qed.

Example equal_example_capacity_ignored :
  (a <- SimpleVector_init [1]%Z ;; operator_eq a v1_of_2) = Ret true.
Proof. reflexivity. Qed.

Example move_construct_example :
  SimpleVector_move v123 = (v123, SimpleVector_default).
Proof. reflexivity. Qed.

(** C1. The copy constructor sizes the new array by the size of the source
    but takes over the capacity of the source: the copy of a vector of size
    1 and capacity 2 reports capacity 2 over an array of one cell, and the
    next [PushBack] writes past that array. *)
Theorem copy_constructor_capacity :
  wf v1_of_2 /\
  SimpleVector_copy v1_of_2
  = Ret (MkSimpleVector (MkArrayPtr (Some [1%Z])) 1 2) /\
  (forall a, SimpleVector_copy v1_of_2 = Ret a ->
     GetSize a = GetSize v1_of_2 /\ contents a = contents v1_of_2 /\
     GetCapacity a = 2 /\ GetCapacity a <> GetSize v1_of_2 /\
     length (buffer a) = 1%nat /\ ~ wf a /\
     PushBack a 5%Z = Undefined).
Proof.
  split; [by_computation |]. split; [reflexivity |].
  intros a [= <-]. repeat split; try (vm_compute; congruence).
  intros (Hlen & _). vm_compute in Hlen. congruence.
Qed.

(** C2. [Resize(n)] with [n] equal to the capacity takes the last branch
    of the function, which only sets the size: the newly exposed cell keeps
    the value left there and is not assigned [Type{}]. *)
Theorem Resize_to_capacity_keeps_leftover :
  wf v1_of_2 /\ GetSize v1_of_2 < 2 <= GetCapacity v1_of_2 /\
  Resize v1_of_2 2 = Ret (MkSimpleVector (MkArrayPtr (Some [1; 2]%Z)) 2 2) /\
  (forall v', Resize v1_of_2 2 = Ret v' ->
     At v' 1 = Ret 2%Z /\ 2%Z <> Type_default).
Proof.
  split; [by_computation |]. split; [by_computation |].
  split; [reflexivity |]. intros v' [= <-]. by_computation.
Qed.

(** C3. The assertion of [operator[]] is [size_ >= index]: in a debug
    build it fails exactly for [index > size_], so [index == size_] passes
    it and the cell one past the sequence is accessed. *)
Theorem subscript_assert_admits_size :
  (forall (T : Type) (E : Element T) (v : SimpleVector T) (i : N),
     subscript Debug v i = Abort <-> GetSize v < i) /\
  subscript Debug v123 (GetSize v123) = Undefined /\
  subscript Debug v1_of_2 (GetSize v1_of_2) = Ret 2%Z.
Proof.
  split; [intros; apply subscript_aborts |]. split; reflexivity.
Qed.

Lemma At_checked_witness :
  wf v123 /\
  ((At v123 1 = Throw out_of_range <-> GetSize v123 <= 1) /\
   (1 < GetSize v123 ->
    exists x, At v123 1 = Ret x /\ contents v123 !! N.to_nat 1 = Some x)).
Proof. split; [by_computation | apply (At_checked v123 1); by_computation]. Defined.

Lemma PushBack_appends_witness :
  wf v123 /\ GetCapacity v123 <= PTRDIFF_MAX /\
  exists v',
    PushBack v123 4%Z = Ret v' /\ PushBack_rvalue v123 4%Z = Ret v' /\
    GetSize v' = GetSize v123 + 1 /\
    At v' (GetSize v123) = Ret 4%Z /\
    (forall i, i < GetSize v123 -> At v' i = At v123 i) /\
    GetCapacity v' = (if GetSize v123 <? GetCapacity v123 then GetCapacity v123
                      else N.max 1 (2 * GetCapacity v123)).
Proof.
  split; [by_computation |]. split; [by_computation |].
  apply (PushBack_appends v123 4%Z); by_computation.
Defined.

Lemma capacity_never_decreases_witness :
  wf v123 /\ GetCapacity v123 <= PTRDIFF_MAX /\
  (precondition (OpInsert 1 9%Z) v123 ->
   exists v', perform Debug (OpInsert 1 9%Z) v123 = Ret v') /\
  (forall v', perform Debug (OpInsert 1 9%Z) v123 = Ret v' ->
     GetCapacity v123 <= GetCapacity v').
Proof.
  split; [by_computation |]. split; [by_computation |].
  apply (capacity_never_decreases Debug (OpInsert 1 9%Z) v123); by_computation.
Defined.

Lemma Insert_Erase_begin_witness :
  wf v123 /\ GetCapacity v123 <= PTRDIFF_MAX /\
  exists v1 v2,
    Insert Debug v123 0 9%Z = Ret (v1, 0) /\
    Insert_rvalue Debug v123 0 9%Z = Ret (v1, 0) /\
    Erase Debug v1 0 = Ret (v2, 0) /\
    GetSize v2 = GetSize v123 /\ contents v2 = contents v123 /\
    GetCapacity v123 <= GetCapacity v2.
Proof.
  split; [by_computation |]. split; [by_computation |].
  apply (Insert_Erase_begin Debug v123 9%Z); by_computation.
Defined.

Lemma comparison_operators_witness :
  wf v1_of_2 /\ wf v123 /\
  exists eq lt gt : bool,
    operator_eq v1_of_2 v123 = Ret eq /\ operator_lt v1_of_2 v123 = Ret lt /\
    operator_lt v123 v1_of_2 = Ret gt /\
    (eq = true <->
     GetSize v1_of_2 = GetSize v123 /\
     pairwise_equal (contents v1_of_2) (contents v123)) /\
    (lt = true <-> lexicographically_less (contents v1_of_2) (contents v123)) /\
    operator_ne v1_of_2 v123 = Ret (negb eq) /\
    operator_le v1_of_2 v123 = Ret (eq || lt) /\
    operator_gt v1_of_2 v123 = Ret gt /\
    operator_ge v1_of_2 v123 = Ret (eq || gt).
Proof.
  split; [by_computation |]. split; [by_computation |].
  apply (comparison_operators v1_of_2 v123); by_computation.
Defined.

Lemma move_assign_distinct_witness :
  0%nat <> 1%nat /\ [v123; v0_of_2] !! 0%nat = Some v123 /\
  [v123; v0_of_2] !! 1%nat = Some v0_of_2 /\
  exists st',
    move_assign_vec [v123; v0_of_2] 0 1 = Ret st' /\
    (forall o, o <> 0%nat -> o <> 1%nat -> st' !! o = [v123; v0_of_2] !! o) /\
    (IsEmpty v0_of_2 = false ->
     st' !! 0%nat = Some v0_of_2 /\ st' !! 1%nat = Some v123) /\
    (IsEmpty v0_of_2 = true ->
     st' !! 1%nat = Some v0_of_2 /\
     exists a', st' !! 0%nat = Some a' /\ GetSize a' = 0 /\
                GetCapacity a' = GetCapacity v123 /\ items_ a' = items_ v123).
Proof.
  split; [lia |]. split; [reflexivity |]. split; [reflexivity |].
  apply (move_assign_distinct [v123; v0_of_2] 0 1 v123 v0_of_2);
    [lia | reflexivity | reflexivity].
Defined.

Lemma self_assignment_witness :
  [v123; v1_of_2] !! 1%nat = Some v1_of_2 /\
  copy_assign [v123; v1_of_2] 1 1 = Ret [v123; v1_of_2] /\
  move_assign_vec [v123; v1_of_2] 1 1 = Ret [v123; v1_of_2].
Proof.
  split; [reflexivity |].
  apply (self_assignment [v123; v1_of_2] 1 v1_of_2). reflexivity.
Defined.

(** * Further properties of the container *)
Section More.
Context {T : Type} `{Element T}.
Implicit Types (v : SimpleVector T) (x : T).

(** X1. A vector built from an initializer list holds exactly the elements
    of the list, in order: its size and its capacity are the length of the
    list, the invariant of the data model holds, and [At(i)] returns the
    [i]-th element of the list. *)
Theorem initializer_list_round_trip (init : list T) :
  N.of_nat (length init) <= SIZE_MAX ->
  exists v, SimpleVector_init init = Ret v /\ wf v /\
    GetSize v = N.of_nat (length init) /\
    GetCapacity v = N.of_nat (length init) /\
    contents v = init /\
    (forall i x, init !! N.to_nat i = Some x -> At v i = Ret x).
Proof.
  intros Hmax.
  destruct (SimpleVector_init_spec init Hmax) as (v & Hv & Hwf & Hs & Hc & Hcont).
  exists v. do 5 (split; [done |]).
  intros i x Hx. apply At_contents; [done | | by rewrite Hcont].
  apply lookup_lt_Some in Hx. lia.
Qed.

(** X2. [SimpleVector(size, value)] holds [size] copies of [value] and
    [SimpleVector(size)] holds [size] copies of [Type{}]; in both the
    capacity equals the size and the invariant of the data model holds. *)
Theorem sized_constructors n (value : T) :
  n <= SIZE_MAX ->
  exists v d,
    SimpleVector_fill n value = Ret v /\ SimpleVector_sized n = Ret d /\
    wf v /\ wf d /\
    GetSize v = n /\ GetCapacity v = n /\
    GetSize d = n /\ GetCapacity d = n /\
    contents v = replicate (N.to_nat n) value /\
    contents d = replicate (N.to_nat n) Type_default.
Proof.
  intros Hmax. unfold SimpleVector_sized.
  destruct (SimpleVector_fill_spec n value Hmax) as (v & -> & ? & ? & ? & ?).
  destruct (SimpleVector_fill_spec n Type_default Hmax)
    as (d & -> & ? & ? & ? & ?).
  by exists v, d.
Qed.

(** X3. [SimpleVector(Reserve(n))] is an empty vector of capacity [n] that
    satisfies the invariant of the data model. *)
Theorem reserving_constructor n :
  n <= SIZE_MAX ->
  exists v,
    SimpleVector_reserved (Reserve_proxy n) = Ret v /\ wf v /\
    GetSize v = 0 /\ GetCapacity v = n /\ contents v = [] /\
    IsEmpty v = true.
Proof.
  intros Hmax. unfold SimpleVector_reserved, Reserve_proxy, ReserveCapasity.
  simpl.
  assert (wf (SimpleVector_default (T := T))) as Hwf0
    by (repeat split; vm_compute; congruence).
  destruct (Reserve_spec SimpleVector_default n Hwf0 Hmax)
    as (v & -> & Hwf & Hs & Hc & Hcont).
  exists v. simpl in *. unfold GetSize, GetCapacity, IsEmpty.
  rewrite Hs. do 3 (split; [done |]). split; [lia | done].
Qed.

(** X4. The copy constructor always copies the size and the sequence, and
    allocates an array of exactly [other.size_] cells while taking over
    [other.capacity_]: the copy satisfies the invariant of the data model
    exactly when the source was full (size equal to capacity). *)
Theorem copy_constructor_general (other : SimpleVector T) :
  wf other ->
  exists v,
    SimpleVector_copy other = Ret v /\
    GetSize v = GetSize other /\ contents v = contents other /\
    GetCapacity v = GetCapacity other /\
    length (buffer v) = N.to_nat (GetSize other) /\
    (wf v <-> GetSize other = GetCapacity other).
Proof.
  intros Hwf.
  destruct (SimpleVector_copy_spec other Hwf) as (v & Hv & Hs & Hc & Hb & Hcont).
  exists v. unfold GetSize, GetCapacity. do 4 (split; [done |]).
  pose proof (length_contents other Hwf) as Hlen.
  destruct Hwf as (Hl & Hle & Hmax).
  split; [by rewrite Hb |]. unfold wf. rewrite Hb, Hlen, Hc, Hs. split.
  - intros (? & _). lia.
  - intros Heq. rewrite Heq. repeat split; (done || lia).
Qed.
(** X5. Copy-assignment between two distinct objects gives the
    destination the size and the sequence of the source and changes no
    other object. From a non-empty source the destination gets a fresh
    array with capacity equal to the size of the source, and satisfies the
    invariant of the data model; from an empty source it is only cleared,
    keeping its array and its capacity. *)
Theorem copy_assignment_distinct (st : objects T) (this rhs : nat)
  (a b : SimpleVector T) :
  this <> rhs -> st !! this = Some a -> st !! rhs = Some b -> wf b ->
  exists st' a',
    copy_assign st this rhs = Ret st' /\
    st' !! this = Some a' /\
    (forall o, o <> this -> st' !! o = st !! o) /\
    GetSize a' = GetSize b /\ contents a' = contents b /\
    (IsEmpty b = false -> wf a' /\ GetCapacity a' = GetSize b) /\
    (IsEmpty b = true ->
     GetCapacity a' = GetCapacity a /\ items_ a' = items_ a).
Proof.
  intros Hne Ha Hb Hwf. unfold copy_assign, deref. rewrite Ha, Hb. simpl.
  rewrite (proj2 (Nat.eqb_neq this rhs) Hne). simpl.
  pose proof (lookup_lt_Some _ _ _ Ha) as Hlt1.
  unfold GetSize, GetCapacity.
  destruct (IsEmpty b) eqn:Hemp.
  - exists (<[this := Clear a]> st), (Clear a). split; [done |].
    split; [by rewrite list_lookup_insert_eq |].
    split; [by intros o Ho; rewrite list_lookup_insert_ne |].
    unfold IsEmpty in Hemp. apply N.eqb_eq in Hemp.
    unfold contents. rewrite Hemp. simpl. by repeat split.
  - destruct Hwf as (Hlen & Hle & Hmax). unfold buffer in Hlen.
    destruct (SimpleVector_fill_spec (size_ b) Type_default)
      as (tmp & Ht & (Htl & _ & _) & Hts & Htc & _); [lia |].
    unfold SimpleVector_sized. rewrite Ht. simpl.
    unfold buffer in Htl. rewrite Htc in Htl.
    unfold std_uninitialized_copy, begin_, mem_of.
    rewrite std_copy_to_own by lia. simpl.
    rewrite Nat.sub_0_r, drop_0, drop_ge, app_nil_r by lia.
    destruct a as [ia sa ca]; simpl.
    do 2 eexists. split; [done |].
    split; [by rewrite list_lookup_insert_eq |].
    split; [by intros o Ho; rewrite list_lookup_insert_ne |].
    unfold wf, contents, buffer. simpl.
    rewrite cells_with_cells by (rewrite length_take; lia).
    rewrite Hts, Htc, length_take, take_take, Nat.min_id.
    repeat split; (done || lia).
Qed.

(** X6. [Reserve(n)] keeps the size and the sequence and leaves the
    capacity at [max(n, capacity)]; for [n <= capacity] the vector is left
    exactly as it was. *)
Theorem Reserve_keeps_contents v n :
  wf v -> n <= SIZE_MAX ->
  exists v',
    Reserve v n = Ret v' /\ wf v' /\
    GetSize v' = GetSize v /\ contents v' = contents v /\
    GetCapacity v' = N.max n (GetCapacity v) /\
    (n <= GetCapacity v -> v' = v).
Proof.
  intros Hwf Hn.
  destruct (Reserve_spec v n Hwf Hn) as (v' & Hr & Hwf' & Hs & Hc & Hcont).
  exists v'. unfold GetSize, GetCapacity. do 5 (split; [done |]).
  intros Hle. unfold Reserve in Hr.
  rewrite (proj2 (N.leb_le _ _) Hle) in Hr. congruence.
Qed.

(** X7. [Resize(n)] with [n] above the size and different from the
    capacity appends [n - size] copies of [Type{}] to the sequence; the
    capacity stays when [n] is below it and becomes
    [max(n, capacity * 2)] (the product taken in [size_t]) when [n] is
    above it. *)
Theorem Resize_grows v n :
  wf v -> n <= SIZE_MAX -> GetSize v < n -> n <> GetCapacity v ->
  exists v',
    Resize v n = Ret v' /\ wf v' /\ GetSize v' = n /\
    contents v' = contents v
                    ++ replicate (N.to_nat (n - GetSize v)) Type_default /\
    GetCapacity v' = (if n <? GetCapacity v then GetCapacity v
                      else N.max n (size_t_mul (GetCapacity v) 2)).
Proof.
  unfold GetSize, GetCapacity. intros Hwf Hn Hlt Hne.
  destruct (Resize_spec v n Hwf Hn) as (v' & Hr & Hwf' & Hs & Hc & Hcont).
  exists v'. do 3 (split; [done |]). split.
  - rewrite Hcont. unfold resized.
    rewrite (proj2 (N.leb_gt _ _)) by lia.
    by rewrite (proj2 (N.eqb_neq _ _)) by lia.
  - rewrite Hc.
    destruct (N.ltb_spec (capacity_ v) n), (N.ltb_spec n (capacity_ v));
      (done || lia).
Qed.

(** X8. [Resize(n)] with [n <= size] only sets the size: the array and
    the capacity are kept, the sequence is cut to its first [n] elements,
    and [Resize(0)] leaves what [Clear()] leaves. This holds for every
    vector state. *)
Theorem Resize_shrinks v n :
  n <= GetSize v ->
  exists v',
    Resize v n = Ret v' /\ items_ v' = items_ v /\
    GetCapacity v' = GetCapacity v /\ GetSize v' = n /\
    contents v' = take (N.to_nat n) (contents v) /\
    (n = 0 -> v' = Clear v).
Proof.
  unfold GetSize, GetCapacity. intros Hle. destruct v as [a sz cp]. simpl in *.
  exists (MkSimpleVector a n cp). unfold Resize, contents, buffer. simpl.
  split.
  - destruct (N.eqb_spec sz n) as [-> | Hne]; [done |].
    by rewrite (proj2 (N.ltb_ge sz n)) by lia.
  - do 3 (split; [done |]). split; [| by intros ->].
    rewrite take_take. f_equal. lia.
Qed.

(** X9. [Insert(pos, x)] at any position of the sequence (either
    overload, either build) puts [x] at [pos] with the elements before it
    unchanged and those from [pos] on moved up by one; it returns the
    iterator [pos], where [At] then reads [x], and keeps the invariant of
    the data model. *)
Theorem Insert_at bm v pos x :
  wf v -> GetCapacity v <= PTRDIFF_MAX -> pos <= GetSize v ->
  exists v',
    Insert bm v pos x = Ret (v', pos) /\
    Insert_rvalue bm v pos x = Ret (v', pos) /\
    wf v' /\ GetSize v' = GetSize v + 1 /\
    contents v' = take (N.to_nat pos) (contents v)
                    ++ x :: drop (N.to_nat pos) (contents v) /\
    At v' pos = Ret x.
Proof.
  unfold GetSize, GetCapacity. intros Hwf Hcap Hpos.
  destruct (Insert_spec bm v pos x Hwf Hcap Hpos)
    as (v' & Hi & Hwf' & Hs & Hc & Hcont).
  exists v'. rewrite Insert_rvalue_eq by done. do 5 (split; [done |]).
  apply At_contents; [done | lia |]. rewrite Hcont.
  pose proof (length_contents v Hwf) as Hlen.
  apply list_lookup_middle. rewrite length_take. lia.
Qed.

(** X10. [Erase(pos)] at any position of the sequence removes the element
    at [pos] and moves the later ones down by one; the size drops by one,
    the capacity is unchanged, the iterator [pos] is returned and the
    invariant of the data model is kept. *)
Theorem Erase_at bm v pos :
  wf v -> pos < GetSize v ->
  exists v',
    Erase bm v pos = Ret (v', pos) /\ wf v' /\
    GetSize v' = GetSize v - 1 /\ GetCapacity v' = GetCapacity v /\
    contents v' = take (N.to_nat pos) (contents v)
                    ++ drop (S (N.to_nat pos)) (contents v).
Proof. apply Erase_spec. Qed.

Lemma remove_inserted (l1 l2 : list T) x p :
  p = length l1 ->
  take p (l1 ++ x :: l2) ++ drop (S p) (l1 ++ x :: l2) = l1 ++ l2.
Proof.
  intros ->. rewrite take_app_length. f_equal.
  rewrite <- (snoc_app l1 l2 x). apply drop_app_length'.
  by rewrite length_snoc.
Qed.

(** X11. [Insert(pos, x)] followed by [Erase(pos)] at the same position
    restores the size and the sequence, for every position from [begin()]
    to [end()]. *)
Theorem Insert_Erase_at bm v pos x :
  wf v -> GetCapacity v <= PTRDIFF_MAX -> pos <= GetSize v ->
  exists v1 v2,
    Insert bm v pos x = Ret (v1, pos) /\ Erase bm v1 pos = Ret (v2, pos) /\
    GetSize v2 = GetSize v /\ contents v2 = contents v.
Proof.
  unfold GetSize, GetCapacity. intros Hwf Hcap Hpos.
  destruct (Insert_spec bm v pos x Hwf Hcap Hpos)
    as (v1 & Hi & Hwf1 & Hs1 & Hc1 & Hcont1).
  destruct (Erase_spec bm v1 pos Hwf1)
    as (v2 & He & Hwf2 & Hs2 & Hc2 & Hcont2); [lia |].
  exists v1, v2. do 2 (split; [done |]). split; [lia |].
  rewrite Hcont2, Hcont1.
  pose proof (length_contents v Hwf) as Hlen.
  assert (length (take (N.to_nat pos) (contents v)) = N.to_nat pos) as Hp
    by (rewrite length_take; lia).
  by rewrite remove_inserted, take_drop.
Qed.
(** X12. [PopBack()] on a non-empty vector only decrements the size: the
    array and the capacity are kept and the sequence loses its last
    element. *)
Theorem PopBack_drops_last bm v :
  wf v -> 0 < GetSize v ->
  exists v',
    PopBack bm v = Ret v' /\ wf v' /\ items_ v' = items_ v /\
    GetCapacity v' = GetCapacity v /\ GetSize v' = GetSize v - 1 /\
    contents v' = take (N.to_nat (GetSize v - 1)) (contents v).
Proof.
  unfold GetSize, GetCapacity. intros Hwf Hpos.
  destruct (PopBack_spec bm v Hwf Hpos) as (v' & Hp & Hwf' & Hs & Hc & Hcont).
  exists v'. do 2 (split; [done |]). split; [| done].
  unfold PopBack in Hp. apply obind_Ret in Hp as (? & _ & Hp).
  by injection Hp as <-.
Qed.

(** X13. [PopBack()] on an empty vector: a debug build aborts on the
    assertion; a release build decrements [size_] from 0, which wraps to
    [SIZE_MAX], and so returns a vector that breaks the invariant of the
    data model (unless its capacity is [SIZE_MAX]). *)
Theorem PopBack_on_empty v :
  GetSize v = 0 ->
  PopBack Debug v = Abort /\
  exists v',
    PopBack Release v = Ret v' /\ GetSize v' = SIZE_MAX /\
    GetCapacity v' = GetCapacity v /\ items_ v' = items_ v /\
    (GetCapacity v < SIZE_MAX -> ~ wf v').
Proof.
  unfold GetSize, GetCapacity, PopBack. intros ->. simpl. split; [done |].
  eexists. split; [done |]. simpl. do 3 (split; [done |]).
  intros Hlt (_ & Hle & _). simpl in Hle.
  change (size_t_decr 0) with SIZE_MAX in Hle. lia.
Qed.

(** X14. [PushBack(x)] followed by [PopBack()] restores the size and the
    sequence; the capacity may have grown. *)
Theorem PushBack_PopBack bm v x :
  wf v -> GetCapacity v <= PTRDIFF_MAX ->
  exists v1 v2,
    PushBack v x = Ret v1 /\ PopBack bm v1 = Ret v2 /\
    GetSize v2 = GetSize v /\ contents v2 = contents v /\
    GetCapacity v <= GetCapacity v2.
Proof.
  unfold GetSize, GetCapacity. intros Hwf Hcap.
  destruct (PushBack_spec v x Hwf Hcap) as (v1 & Hp & Hwf1 & Hs1 & Hc1 & Hcont1).
  destruct (PopBack_spec bm v1 Hwf1) as (v2 & Hq & Hwf2 & Hs2 & Hc2 & Hcont2);
    [lia |].
  exists v1, v2. do 2 (split; [done |]). split; [lia |]. split.
  - rewrite Hcont2, Hcont1, Hs1.
    replace (N.to_nat (size_ v + 1 - 1)) with (length (contents v))
      by (rewrite length_contents by done; lia).
    apply take_app_length.
  - rewrite Hc2, Hc1. unfold grown, PTRDIFF_MAX in *.
    destruct (size_ v <? capacity_ v); lia.
Qed.

Lemma assert_false (cond : bool) : cond = false -> assert_ Debug cond = Abort.
Proof. by intros ->. Qed.

(** X15. In a debug build, on a vector that satisfies the invariant of
    the data model, [Insert] aborts exactly for a position beyond [end()],
    [Erase] exactly for a position at or beyond [end()], and [PopBack]
    exactly on an empty vector. *)
Theorem debug_assertions v pos x :
  wf v -> GetCapacity v <= PTRDIFF_MAX ->
  (Insert Debug v pos x = Abort <-> GetSize v < pos) /\
  (Insert_rvalue Debug v pos x = Abort <-> GetSize v < pos) /\
  (Erase Debug v pos = Abort <-> GetSize v <= pos) /\
  (PopBack Debug v = Abort <-> GetSize v = 0).
Proof.
  unfold GetSize, GetCapacity. intros Hwf Hcap.
  assert (Insert Debug v pos x = Abort <-> size_ v < pos) as Hins.
  { destruct (N.leb_spec pos (size_ v)) as [Hle | Hgt].
    - destruct (Insert_spec Debug v pos x Hwf Hcap Hle) as (v' & -> & _).
      split; [done | lia].
    - unfold Insert.
      rewrite assert_false
        by (apply andb_false_iff; right; apply N.leb_gt; lia).
      done. }
  split; [done |]. split; [| split].
  - destruct (N.leb_spec pos (size_ v)) as [Hle | Hgt].
    + by rewrite Insert_rvalue_eq.
    + unfold Insert_rvalue.
      rewrite assert_false
        by (apply andb_false_iff; right; apply N.leb_gt; lia).
      done.
  - destruct (N.ltb_spec pos (size_ v)) as [Hlt | Hge].
    + destruct (Erase_spec Debug v pos Hwf Hlt) as (v' & -> & _).
      split; [done | lia].
    + unfold Erase.
      rewrite assert_false
        by (apply andb_false_iff; right; apply N.ltb_ge; lia).
      done.
  - unfold PopBack. simpl.
    destruct (N.eqb_spec (size_ v) 0) as [Hz | Hnz]; simpl; [done |].
    split; [done | lia].
Qed.

(** X16. Every mutating operation called within its precondition, on a
    vector that satisfies the invariant of the data model and whose
    capacity is at most [PTRDIFF_MAX], returns a vector that satisfies the
    invariant again. *)
Theorem operations_keep_invariant bm (op : operation T) v :
  wf v -> GetCapacity v <= PTRDIFF_MAX -> precondition op v ->
  exists v', perform bm op v = Ret v' /\ wf v'.
Proof. apply perform_returns. Qed.

(** X17. Within its precondition every mutating operation behaves the
    same in a debug and in a release build, on every vector state. *)
Theorem build_independent (op : operation T) v :
  precondition op v -> perform Debug op v = perform Release op v.
Proof.
  intros Hpre.
  destruct op; simpl in *; try done;
    unfold Insert, Insert_rvalue, Erase, PopBack;
    rewrite !assert_true; try done.
  all: rewrite ?andb_true_iff, ?negb_true_iff, ?N.leb_le, ?N.ltb_lt, ?N.eqb_neq;
    lia.
Qed.
Lemma PushBack_in_place v x :
  wf v -> size_ v < capacity_ v ->
  exists v',
    PushBack v x = Ret v' /\ wf v' /\ size_ v' = size_ v + 1 /\
    capacity_ v' = capacity_ v /\ contents v' = contents v ++ [x] /\
    buffer v' = <[N.to_nat (size_ v) := x]> (buffer v).
Proof.
  intros (Hlen & Hle & Hmax) Hlt. unfold PushBack, contents, buffer in *.
  rewrite (proj2 (N.ltb_lt _ _) Hlt).
  rewrite set_spec by lia. simpl.
  rewrite size_t_incr_lt by (unfold SIZE_MAX in *; lia).
  eexists; split; [done |]. unfold wf, buffer. simpl.
  rewrite cells_with_cells by by rewrite length_insert.
  rewrite length_insert.
  do 3 (split; [repeat split; (done || lia) |]). split; [| done].
  replace (N.to_nat (size_ v + 1)) with (S (N.to_nat (size_ v))) by lia.
  apply take_S_insert. lia.
Qed.

(** X18. Appending the elements of a list one by one with [PushBack]
    appends the list to the sequence, and the capacity reached never
    exceeds the larger of the initial capacity and twice the final size. *)
Theorem PushBack_all_appends xs : forall v,
  wf v -> GetCapacity v <= PTRDIFF_MAX ->
  2 * (GetSize v + N.of_nat (length xs)) <= PTRDIFF_MAX ->
  exists v',
    PushBack_all v xs = Ret v' /\ wf v' /\
    GetSize v' = GetSize v + N.of_nat (length xs) /\
    contents v' = contents v ++ xs /\
    GetCapacity v <= GetCapacity v' /\
    GetCapacity v' <= N.max (GetCapacity v) (2 * GetSize v').
Proof.
  unfold GetSize, GetCapacity.
  induction xs as [|x xs IH]; intros v Hwf Hcap Hsz; simpl.
  - exists v. split; [done |]. split; [done |].
    rewrite app_nil_r. repeat split; lia.
  - destruct (PushBack_spec v x Hwf Hcap) as (v1 & -> & Hwf1 & Hs1 & Hc1 & Hcont1).
    simpl.
    assert (capacity_ v <= capacity_ v1 <= N.max (capacity_ v) (2 * size_ v1))
      as Hb.
    { rewrite Hc1, Hs1. unfold grown.
      destruct (N.ltb_spec (size_ v) (capacity_ v)) as [? | ?]; [lia |].
      destruct Hwf as (_ & ? & _). lia. }
    destruct (IH v1 Hwf1) as (v' & -> & Hwf' & Hs' & Hcont' & Hc' & Hc'');
      [simpl in Hsz; lia | simpl in Hsz; lia |].
    exists v'. split; [done |]. split; [done |].
    rewrite Hs', Hs1, Hcont', Hcont1, <- app_assoc. simpl.
    repeat split; try lia.
Qed.

(** X19. As long as the elements fit into the capacity, [PushBack] never
    reallocates: after appending a list that fits, the capacity is
    unchanged and the cells past the new size are the ones that were
    there. *)
Theorem PushBack_all_within_capacity xs : forall v,
  wf v -> GetSize v + N.of_nat (length xs) <= GetCapacity v ->
  exists v',
    PushBack_all v xs = Ret v' /\ wf v' /\
    GetSize v' = GetSize v + N.of_nat (length xs) /\
    contents v' = contents v ++ xs /\
    GetCapacity v' = GetCapacity v /\
    drop (N.to_nat (GetSize v')) (buffer v')
    = drop (N.to_nat (GetSize v')) (buffer v).
Proof.
  unfold GetSize, GetCapacity.
  induction xs as [|x xs IH]; intros v Hwf Hsz; simpl.
  - exists v. split; [done |]. split; [done |].
    rewrite app_nil_r, N.add_0_r. by repeat split.
  - simpl in Hsz.
    destruct (PushBack_in_place v x Hwf)
      as (v1 & -> & Hwf1 & Hs1 & Hc1 & Hcont1 & Hb1); [lia |].
    simpl.
    destruct (IH v1 Hwf1) as (v' & -> & Hwf' & Hs' & Hcont' & Hc' & Hb');
      [lia |].
    exists v'. split; [done |]. split; [done |].
    rewrite Hs', Hs1, Hcont', Hcont1, <- app_assoc, Hc', Hc1. simpl.
    split; [lia |]. do 2 (split; [done |]).
    rewrite Hs', Hs1 in Hb'. 
    replace (size_ v + N.pos (Pos.of_succ_nat (length xs)))
      with (size_ v + 1 + N.of_nat (length xs)) by lia.
    rewrite Hb', Hb1. apply drop_insert_lt. lia.
Qed.

(** X20. For an index below the size, unchecked [operator[]] (in either
    build) and checked [At] return the same element, the one at that index
    of the sequence. *)
Theorem subscript_in_range bm v i :
  wf v -> i < GetSize v ->
  exists x,
    subscript bm v i = Ret x /\ At v i = Ret x /\
    contents v !! N.to_nat i = Some x.
Proof.
  unfold GetSize. intros Hwf Hi.
  destruct (At_inside v i Hwf Hi) as (x & Hat & Hx).
  exists x. split; [| done]. unfold subscript.
  rewrite assert_true by (apply N.leb_le; lia). simpl.
  unfold At in Hat. by rewrite (proj2 (N.ltb_lt _ _) Hi) in Hat.
Qed.

(** X21. [ArrayPtr(size)] owns exactly [size] cells and converts to
    [true] exactly when [size] is not 0: every index below [size] can be
    read, and no index from [size] on. *)
Theorem ArrayPtr_created n :
  length (ArrayPtr_.cells (ArrayPtr_.create (T := T) n)) = N.to_nat n /\
  ArrayPtr_.to_bool (ArrayPtr_.create (T := T) n) = negb (n =? 0) /\
  (forall i, i < n -> exists x, ArrayPtr_.get (ArrayPtr_.create n) i = Ret x) /\
  (forall i, n <= i -> ArrayPtr_.get (ArrayPtr_.create (T := T) n) i = Undefined).
Proof.
  split; [apply length_cells_create |]. split.
  - unfold ArrayPtr_.create. by destruct (n =? 0).
  - pose proof (length_cells_create (T := T) n) as Hlen.
    unfold ArrayPtr_.get. split; intros i Hi.
    + destruct (lookup_lt_is_Some_2 (ArrayPtr_.cells (ArrayPtr_.create n))
                  (N.to_nat i)) as [x ->]; [lia | by eexists].
    + by rewrite lookup_ge_None_2 by lia.
Qed.

(** X22. Writing [x] through [operator[]] of an [ArrayPtr] at an index
    inside the array and reading the same index gives [x]; every other
    index reads as before, the number of cells and the null state are
    unchanged. *)
Theorem ArrayPtr_set_get (a : ArrayPtr T) i x :
  (N.to_nat i < length (ArrayPtr_.cells a))%nat ->
  exists a',
    ArrayPtr_.set a i x = Ret a' /\ ArrayPtr_.get a' i = Ret x /\
    (forall j, j <> i -> ArrayPtr_.get a' j = ArrayPtr_.get a j) /\
    length (ArrayPtr_.cells a') = length (ArrayPtr_.cells a) /\
    ArrayPtr_.to_bool a' = ArrayPtr_.to_bool a.
Proof.
  intros Hi. rewrite set_spec by done. eexists. split; [done |].
  unfold ArrayPtr_.get.
  rewrite cells_with_cells by apply length_insert.
  split; [by rewrite list_lookup_insert_eq |]. split.
  - intros j Hj. rewrite list_lookup_insert_ne; [done | lia].
  - split; [apply length_insert |]. by destruct a as [[l|]].
Qed.

(** X23. The move constructor gives the new vector the whole state of the
    source and leaves the source empty with capacity 0 and a null array;
    the source is still usable: a [PushBack(x)] on it gives the sequence
    [{x}] with capacity 1. *)
Theorem move_constructor_empties_source (other : SimpleVector T) x :
  exists v o,
    SimpleVector_move other = (v, o) /\ v = other /\
    GetSize o = 0 /\ GetCapacity o = 0 /\ ArrayPtr_.to_bool (items_ o) = false /\
    wf o /\
    exists o', PushBack o x = Ret o' /\ wf o' /\ contents o' = [x] /\
               GetCapacity o' = 1.
Proof.
  exists other, SimpleVector_default. split; [by destruct other |].
  do 4 (split; [done |]).
  assert (wf (SimpleVector_default (T := T))) as Hwf0
    by (repeat split; vm_compute; congruence).
  split; [done |].
  destruct (PushBack_spec SimpleVector_default x Hwf0)
    as (o' & Ho & Hwf' & _ & Hc & Hcont); [vm_compute; congruence |].
  exists o'. do 2 (split; [done |]). split; [by rewrite Hcont | by unfold GetCapacity; rewrite Hc].
Qed.
Lemma equal_seq_trichotomy (xs ys : list T) :
  (forall x y, elem_eq x y = true <-> equivalent x y) ->
  equal_seq xs ys = negb (less_seq xs ys) && negb (less_seq ys xs).
Proof.
  intros Hcons. revert ys.
  induction xs as [|x xs IH]; intros [|y ys]; simpl; try done.
  destruct (elem_lt x y) eqn:Hxy, (elem_lt y x) eqn:Hyx; simpl.
  - destruct (elem_eq x y) eqn:He; [| done].
    apply Hcons in He as [? _]. congruence.
  - destruct (elem_eq x y) eqn:He; [| done].
    apply Hcons in He as [? _]. congruence.
  - destruct (elem_eq x y) eqn:He; [| done].
    apply Hcons in He as [_ ?]. congruence.
  - rewrite (proj2 (Hcons x y)) by done. apply IH.
Qed.

Lemma less_seq_asymmetric (xs ys : list T) :
  (forall x y, elem_lt x y = true -> elem_lt y x = false) ->
  less_seq xs ys = true -> less_seq ys xs = false.
Proof.
  intros Hasym. revert ys.
  induction xs as [|x xs IH]; intros [|y ys]; simpl; try done.
  destruct (elem_lt x y) eqn:Hxy.
  - intros _. by rewrite (Hasym x y).
  - destruct (elem_lt y x); [done | apply IH].
Qed.

(** X24. For an element type whose [operator==] holds exactly for the
    elements neither of which is less than the other and whose [operator<]
    is asymmetric: [a == b] holds exactly when neither [a < b] nor [b < a],
    [a < b] excludes [b < a], [a != b] is [a < b || b < a], [a <= b] is
    [!(b < a)], [a >= b] is [!(a < b)], and a vector is equal to and not
    less than itself. *)
Theorem comparison_trichotomy (a b : SimpleVector T) :
  wf a -> wf b ->
  (forall x y, elem_eq x y = true <-> equivalent x y) ->
  (forall x y, elem_lt x y = true -> elem_lt y x = false) ->
  exists eq lt gt : bool,
    operator_eq a b = Ret eq /\ operator_lt a b = Ret lt /\
    operator_gt a b = Ret gt /\
    eq = negb lt && negb gt /\ (lt = true -> gt = false) /\
    operator_ne a b = Ret (lt || gt) /\
    operator_le a b = Ret (negb gt) /\
    operator_ge a b = Ret (negb lt) /\
    operator_eq a a = Ret true /\ operator_lt a a = Ret false.
Proof.
  intros Ha Hb Hcons Hasym.
  unfold operator_ne, operator_le, operator_gt, operator_ge.
  rewrite !operator_eq_spec, !operator_lt_spec by done.
  pose proof (equal_seq_trichotomy (contents a) (contents b) Hcons) as Htri.
  pose proof (less_seq_asymmetric (contents a) (contents b) Hasym) as Hab.
  pose proof (equal_seq_trichotomy (contents a) (contents a) Hcons) as Hrefl.
  pose proof (less_seq_asymmetric (contents a) (contents a) Hasym) as Haa.
  exists (equal_seq (contents a) (contents b)),
    (less_seq (contents a) (contents b)), (less_seq (contents b) (contents a)).
  do 5 (split; [done |]). simpl. rewrite Htri, Hrefl.
  destruct (less_seq (contents a) (contents b)),
    (less_seq (contents b) (contents a)); simpl;
    try (specialize (Hab eq_refl); discriminate);
    destruct (less_seq (contents a) (contents a));
    try (specialize (Haa eq_refl); discriminate); done.
Qed.
Lemma equal_seq_refl (xs : list T) :
  (forall x, elem_eq x x = true) -> equal_seq xs xs = true.
Proof.
  intros Hrefl. induction xs as [|x xs IH]; simpl; [done |].
  by rewrite Hrefl, IH.
Qed.

(** X25. For an element type with reflexive [operator==], two vectors
    with the same sequence compare equal whatever their capacities and
    whatever the cells past their sizes hold. *)
Theorem equality_ignores_spare_cells (a b : SimpleVector T) :
  wf a -> wf b -> (forall x, elem_eq x x = true) ->
  contents a = contents b ->
  operator_eq a b = Ret true /\ operator_ne a b = Ret false.
Proof.
  intros Ha Hb Hrefl Hcont. unfold operator_ne.
  rewrite operator_eq_spec, Hcont, equal_seq_refl by done. done.
Qed.
End More.

(** * The further properties on concrete vectors of [int] *)

Lemma initializer_list_round_trip_witness :
  N.of_nat (length [1; 2; 3]%Z) <= SIZE_MAX /\
  exists v, SimpleVector_init [1; 2; 3]%Z = Ret v /\ wf v /\
    GetSize v = N.of_nat (length [1; 2; 3]%Z) /\
    GetCapacity v = N.of_nat (length [1; 2; 3]%Z) /\
    contents v = [1; 2; 3]%Z /\
    (forall i x, [1; 2; 3]%Z !! N.to_nat i = Some x -> At v i = Ret x).
Proof.
  split; [by_computation |].
  apply (initializer_list_round_trip [1; 2; 3]%Z); by_computation.
Defined.

Lemma sized_constructors_witness :
  3 <= SIZE_MAX /\
  exists v d : SimpleVector Z,
    SimpleVector_fill 3 7%Z = Ret v /\ SimpleVector_sized 3 = Ret d /\
    wf v /\ wf d /\
    GetSize v = 3 /\ GetCapacity v = 3 /\
    GetSize d = 3 /\ GetCapacity d = 3 /\
    contents v = replicate (N.to_nat 3) 7%Z /\
    contents d = replicate (N.to_nat 3) Type_default.
Proof.
  split; [by_computation |]. apply (sized_constructors 3 7%Z); by_computation.
Defined.

Lemma reserving_constructor_witness :
  5 <= SIZE_MAX /\
  exists v : SimpleVector Z,
    SimpleVector_reserved (Reserve_proxy 5) = Ret v /\ wf v /\
    GetSize v = 0 /\ GetCapacity v = 5 /\ contents v = [] /\
    IsEmpty v = true.
Proof.
  split; [by_computation |]. apply (reserving_constructor 5); by_computation.
Defined.

Lemma copy_constructor_general_witness :
  wf v1_of_2 /\
  exists v,
    SimpleVector_copy v1_of_2 = Ret v /\
    GetSize v = GetSize v1_of_2 /\ contents v = contents v1_of_2 /\
    GetCapacity v = GetCapacity v1_of_2 /\
    length (buffer v) = N.to_nat (GetSize v1_of_2) /\
    (wf v <-> GetSize v1_of_2 = GetCapacity v1_of_2).
Proof.
  split; [by_computation |]. apply (copy_constructor_general v1_of_2).
  by_computation.
Defined.

Lemma copy_assignment_distinct_witness :
  0%nat <> 1%nat /\ [v1_of_2; v123] !! 0%nat = Some v1_of_2 /\
  [v1_of_2; v123] !! 1%nat = Some v123 /\ wf v123 /\
  exists st' a',
    copy_assign [v1_of_2; v123] 0 1 = Ret st' /\
    st' !! 0%nat = Some a' /\
    (forall o, o <> 0%nat -> st' !! o = [v1_of_2; v123] !! o) /\
    GetSize a' = GetSize v123 /\ contents a' = contents v123 /\
    (IsEmpty v123 = false -> wf a' /\ GetCapacity a' = GetSize v123) /\
    (IsEmpty v123 = true ->
     GetCapacity a' = GetCapacity v1_of_2 /\ items_ a' = items_ v1_of_2).
Proof.
  split; [lia |]. split; [reflexivity |]. split; [reflexivity |].
  split; [by_computation |].
  apply (copy_assignment_distinct [v1_of_2; v123] 0 1 v1_of_2 v123);
    [lia | reflexivity | reflexivity | by_computation].
Defined.

Lemma Reserve_keeps_contents_witness :
  wf v123 /\ 8 <= SIZE_MAX /\
  exists v',
    Reserve v123 8 = Ret v' /\ wf v' /\
    GetSize v' = GetSize v123 /\ contents v' = contents v123 /\
    GetCapacity v' = N.max 8 (GetCapacity v123) /\
    (8 <= GetCapacity v123 -> v' = v123).
Proof.
  split; [by_computation |]. split; [by_computation |].
  apply (Reserve_keeps_contents v123 8); by_computation.
Defined.

Lemma Resize_grows_witness :
  wf v1_of_2 /\ 5 <= SIZE_MAX /\ GetSize v1_of_2 < 5 /\
  5 <> GetCapacity v1_of_2 /\
  exists v',
    Resize v1_of_2 5 = Ret v' /\ wf v' /\ GetSize v' = 5 /\
    contents v' = contents v1_of_2
                    ++ replicate (N.to_nat (5 - GetSize v1_of_2)) Type_default /\
    GetCapacity v' = (if 5 <? GetCapacity v1_of_2 then GetCapacity v1_of_2
                      else N.max 5 (size_t_mul (GetCapacity v1_of_2) 2)).
Proof.
  split; [by_computation |]. split; [by_computation |].
  split; [by_computation |]. split; [by_computation |].
  apply (Resize_grows v1_of_2 5); by_computation.
Defined.

Lemma Resize_shrinks_witness :
  1 <= GetSize v123 /\
  exists v',
    Resize v123 1 = Ret v' /\ items_ v' = items_ v123 /\
    GetCapacity v' = GetCapacity v123 /\ GetSize v' = 1 /\
    contents v' = take (N.to_nat 1) (contents v123) /\
    (1 = 0 -> v' = Clear v123).
Proof.
  split; [by_computation |]. apply (Resize_shrinks v123 1); by_computation.
Defined.

Lemma Insert_at_witness :
  wf v123 /\ GetCapacity v123 <= PTRDIFF_MAX /\ 1 <= GetSize v123 /\
  exists v',
    Insert Release v123 1 9%Z = Ret (v', 1) /\
    Insert_rvalue Release v123 1 9%Z = Ret (v', 1) /\
    wf v' /\ GetSize v' = GetSize v123 + 1 /\
    contents v' = take (N.to_nat 1) (contents v123)
                    ++ 9%Z :: drop (N.to_nat 1) (contents v123) /\
    At v' 1 = Ret 9%Z.
Proof.
  split; [by_computation |]. split; [by_computation |].
  split; [by_computation |].
  apply (Insert_at Release v123 1 9%Z); by_computation.
Defined.

Lemma Erase_at_witness :
  wf v123 /\ 1 < GetSize v123 /\
  exists v',
    Erase Release v123 1 = Ret (v', 1) /\ wf v' /\
    GetSize v' = GetSize v123 - 1 /\ GetCapacity v' = GetCapacity v123 /\
    contents v' = take (N.to_nat 1) (contents v123)
                    ++ drop (S (N.to_nat 1)) (contents v123).
Proof.
  split; [by_computation |]. split; [by_computation |].
  apply (Erase_at Release v123 1); by_computation.
Defined.

Lemma Insert_Erase_at_witness :
  wf v123 /\ GetCapacity v123 <= PTRDIFF_MAX /\ 2 <= GetSize v123 /\
  exists v1 v2,
    Insert Debug v123 2 9%Z = Ret (v1, 2) /\ Erase Debug v1 2 = Ret (v2, 2) /\
    GetSize v2 = GetSize v123 /\ contents v2 = contents v123.
Proof.
  split; [by_computation |]. split; [by_computation |].
  split; [by_computation |].
  apply (Insert_Erase_at Debug v123 2 9%Z); by_computation.
Defined.

Lemma PopBack_drops_last_witness :
  wf v123 /\ 0 < GetSize v123 /\
  exists v',
    PopBack Debug v123 = Ret v' /\ wf v' /\ items_ v' = items_ v123 /\
    GetCapacity v' = GetCapacity v123 /\ GetSize v' = GetSize v123 - 1 /\
    contents v' = take (N.to_nat (GetSize v123 - 1)) (contents v123).
Proof.
  split; [by_computation |]. split; [by_computation |].
  apply (PopBack_drops_last Debug v123); by_computation.
Defined.

Lemma PopBack_on_empty_witness :
  GetSize v0_of_2 = 0 /\
  PopBack Debug v0_of_2 = Abort /\
  exists v',
    PopBack Release v0_of_2 = Ret v' /\ GetSize v' = SIZE_MAX /\
    GetCapacity v' = GetCapacity v0_of_2 /\ items_ v' = items_ v0_of_2 /\
    (GetCapacity v0_of_2 < SIZE_MAX -> ~ wf v').
Proof.
  split; [reflexivity |]. apply (PopBack_on_empty v0_of_2). reflexivity.
Defined.

Lemma PushBack_PopBack_witness :
  wf v123 /\ GetCapacity v123 <= PTRDIFF_MAX /\
  exists v1 v2,
    PushBack v123 4%Z = Ret v1 /\ PopBack Debug v1 = Ret v2 /\
    GetSize v2 = GetSize v123 /\ contents v2 = contents v123 /\
    GetCapacity v123 <= GetCapacity v2.
Proof.
  split; [by_computation |]. split; [by_computation |].
  apply (PushBack_PopBack Debug v123 4%Z); by_computation.
Defined.

Lemma debug_assertions_witness :
  wf v123 /\ GetCapacity v123 <= PTRDIFF_MAX /\
  (Insert Debug v123 4 9%Z = Abort <-> GetSize v123 < 4) /\
  (Insert_rvalue Debug v123 4 9%Z = Abort <-> GetSize v123 < 4) /\
  (Erase Debug v123 4 = Abort <-> GetSize v123 <= 4) /\
  (PopBack Debug v123 = Abort <-> GetSize v123 = 0).
Proof.
  split; [by_computation |]. split; [by_computation |].
  apply (debug_assertions v123 4 9%Z); by_computation.
Defined.

Lemma operations_keep_invariant_witness :
  wf v123 /\ GetCapacity v123 <= PTRDIFF_MAX /\
  precondition (OpErase 0 : operation Z) v123 /\
  exists v', perform Release (OpErase 0) v123 = Ret v' /\ wf v'.
Proof.
  split; [by_computation |]. split; [by_computation |].
  split; [by_computation |].
  apply (operations_keep_invariant Release (OpErase 0) v123); by_computation.
Defined.

Lemma build_independent_witness :
  precondition (OpPopBack : operation Z) v123 /\
  perform Debug OpPopBack v123 = perform Release OpPopBack v123.
Proof.
  split; [by_computation |]. apply (build_independent OpPopBack v123).
  by_computation.
Defined.

Lemma PushBack_all_appends_witness :
  wf v123 /\ GetCapacity v123 <= PTRDIFF_MAX /\
  2 * (GetSize v123 + N.of_nat (length [4; 5]%Z)) <= PTRDIFF_MAX /\
  exists v',
    PushBack_all v123 [4; 5]%Z = Ret v' /\ wf v' /\
    GetSize v' = GetSize v123 + N.of_nat (length [4; 5]%Z) /\
    contents v' = contents v123 ++ [4; 5]%Z /\
    GetCapacity v123 <= GetCapacity v' /\
    GetCapacity v' <= N.max (GetCapacity v123) (2 * GetSize v').
Proof.
  split; [by_computation |]. split; [by_computation |].
  split; [by_computation |].
  apply (PushBack_all_appends [4; 5]%Z v123); by_computation.
Defined.

Lemma PushBack_all_within_capacity_witness :
  wf v0_of_2 /\
  GetSize v0_of_2 + N.of_nat (length [7; 8]%Z) <= GetCapacity v0_of_2 /\
  exists v',
    PushBack_all v0_of_2 [7; 8]%Z = Ret v' /\ wf v' /\
    GetSize v' = GetSize v0_of_2 + N.of_nat (length [7; 8]%Z) /\
    contents v' = contents v0_of_2 ++ [7; 8]%Z /\
    GetCapacity v' = GetCapacity v0_of_2 /\
    drop (N.to_nat (GetSize v')) (buffer v')
    = drop (N.to_nat (GetSize v')) (buffer v0_of_2).
Proof.
  split; [by_computation |]. split; [by_computation |].
  apply (PushBack_all_within_capacity [7; 8]%Z v0_of_2); by_computation.
Defined.

Lemma subscript_in_range_witness :
  wf v123 /\ 2 < GetSize v123 /\
  exists x,
    subscript Debug v123 2 = Ret x /\ At v123 2 = Ret x /\
    contents v123 !! N.to_nat 2 = Some x.
Proof.
  split; [by_computation |]. split; [by_computation |].
  apply (subscript_in_range Debug v123 2); by_computation.
Defined.

Lemma ArrayPtr_set_get_witness :
  (N.to_nat 1 < length (ArrayPtr_.cells (items_ v123)))%nat /\
  exists a',
    ArrayPtr_.set (items_ v123) 1 9%Z = Ret a' /\
    ArrayPtr_.get a' 1 = Ret 9%Z /\
    (forall j, j <> 1 -> ArrayPtr_.get a' j = ArrayPtr_.get (items_ v123) j) /\
    length (ArrayPtr_.cells a') = length (ArrayPtr_.cells (items_ v123)) /\
    ArrayPtr_.to_bool a' = ArrayPtr_.to_bool (items_ v123).
Proof.
  split; [vm_compute; lia |].
  apply (ArrayPtr_set_get (items_ v123) 1 9%Z). vm_compute; lia.
Defined.

Lemma Z_eq_equivalent (x y : Z) : elem_eq x y = true <-> equivalent x y.
Proof.
  unfold equivalent. simpl. rewrite Z.eqb_eq, !Z.ltb_ge. lia.
Defined.

Lemma Z_lt_asymmetric (x y : Z) : elem_lt x y = true -> elem_lt y x = false.
Proof. simpl. rewrite Z.ltb_lt, Z.ltb_ge. lia. Defined.

Lemma comparison_trichotomy_witness :
  wf v1_of_2 /\ wf v123 /\
  (forall x y : Z, elem_eq x y = true <-> equivalent x y) /\
  (forall x y : Z, elem_lt x y = true -> elem_lt y x = false) /\
  exists eq lt gt : bool,
    operator_eq v1_of_2 v123 = Ret eq /\ operator_lt v1_of_2 v123 = Ret lt /\
    operator_gt v1_of_2 v123 = Ret gt /\
    eq = negb lt && negb gt /\ (lt = true -> gt = false) /\
    operator_ne v1_of_2 v123 = Ret (lt || gt) /\
    operator_le v1_of_2 v123 = Ret (negb gt) /\
    operator_ge v1_of_2 v123 = Ret (negb lt) /\
    operator_eq v1_of_2 v1_of_2 = Ret true /\
    operator_lt v1_of_2 v1_of_2 = Ret false.
Proof.
  split; [by_computation |]. split; [by_computation |].
  split; [apply Z_eq_equivalent |]. split; [apply Z_lt_asymmetric |].
  apply (comparison_trichotomy v1_of_2 v123);
    [by_computation | by_computation | apply Z_eq_equivalent
     | apply Z_lt_asymmetric].
Defined.

Lemma equality_ignores_spare_cells_witness :
  wf v1_of_2 /\ wf (MkSimpleVector (MkArrayPtr (Some [1; 5; 6]%Z)) 1 3) /\
  (forall x : Z, elem_eq x x = true) /\
  contents v1_of_2
  = contents (MkSimpleVector (MkArrayPtr (Some [1; 5; 6]%Z)) 1 3) /\
  operator_eq v1_of_2 (MkSimpleVector (MkArrayPtr (Some [1; 5; 6]%Z)) 1 3)
  = Ret true /\
  operator_ne v1_of_2 (MkSimpleVector (MkArrayPtr (Some [1; 5; 6]%Z)) 1 3)
  = Ret false.
Proof.
  split; [by_computation |]. split; [by_computation |].
  split; [apply Z.eqb_refl |]. split; [reflexivity |].
  apply (equality_ignores_spare_cells v1_of_2
           (MkSimpleVector (MkArrayPtr (Some [1; 5; 6]%Z)) 1 3));
    [by_computation | by_computation | apply Z.eqb_refl | reflexivity].
Defined.
